(** * Free-text ticker resolver of [finance_api.py]

    A shallow embedding of [_normalize_company_text], [_maybe_append_st] and
    [resolve_tickers_from_text], with the static tables they read, and the
    properties the specification states about them.

    Conventions of the embedding.
    - A Python [str] is a list of Unicode code points ([N]).  The case
      mappings [str.lower] and [str.upper] are written out for the code
      points U+0000..U+00FF (where they agree with CPython, including the
      three that leave the range: U+00B5, U+00DF, U+00FF); code points above
      U+00FF are left unchanged, which is not what CPython does for the
      cased letters among them.  The properties about upper-casing itself
      are therefore stated for an arbitrary case mapping under the contract
      [upper_contract], and the one that depends on lower-casing a whole
      text for texts on which [lower_char] is exact.
    - The two regular expressions of the module are values of a small
      regular-expression type; [re.fullmatch] is matching by Brzozowski
      derivatives, and [findall] of the one-class pattern [_WORDS_RX] is
      the list of the maximal runs of characters of its class.
    - The function never mutates shared state; the only effect it can have is
      raising [KeyError] at [_ALIAS_TO_TICKER[match_name]], so it returns a
      [py] result.
    - Two things the module uses are not part of the repository and are
      taken as a [runtime] parameter: the order in which CPython iterates a
      [set] of strings (it depends on the per-process string hash) and the
      answer of [rapidfuzz.process.extract]. *)

From Stdlib Require Import List Bool Arith NArith ZArith Lia.
From Stdlib Require Import Ascii.
From Stdlib Require String.
Import String.StringSyntax.
Delimit Scope string_scope with string.
Bind Scope string_scope with String.string.
From Stdlib Require Import Permutation.
Import ListNotations.

(** ** Python strings *)

Module Str.

Definition char := N.
Definition str := list char.

(** [u "abc"] is the Python literal ["abc"]: every byte of the Rocq string is
    read as the code point of the same number. *)
Definition u (s : String.string) : str :=
  map N_of_ascii (String.list_ascii_of_string s).

Definition eqb (a b : str) : bool :=
  if list_eq_dec N.eq_dec a b then true else false.

(** [x in xs] for a list, a set or the keys of a dict of strings. *)
Definition mem (x : str) (xs : list str) : bool := existsb (eqb x) xs.

Definition between (lo hi c : N) : bool := (lo <=? c)%N && (c <=? hi)%N.

(** [str.lower], one code point at a time. *)
Definition lower_char (c : char) : char :=
  if between 65 90 c then (c + 32)%N
  else if between 192 222 c && negb (c =? 215)%N then (c + 32)%N
  else c.

Definition lower (s : str) : str := map lower_char s.

(** [str.upper] can lengthen a string (U+00DF becomes "SS"). *)
Definition upper_char (c : char) : str :=
  if between 97 122 c then [(c - 32)%N]
  else if between 224 254 c && negb (c =? 247)%N then [(c - 32)%N]
  else if (c =? 181)%N then [924%N]
  else if (c =? 223)%N then [83%N; 83%N]
  else if (c =? 255)%N then [376%N]
  else [c].

Definition upper (s : str) : str := flat_map upper_char s.

(** [s.endswith(suffix)] *)
Definition endswith (s suffix : str) : bool :=
  (length suffix <=? length s)%nat
  && eqb (skipn (length s - length suffix) s) suffix.

(** Unicode white space, as [str.isspace] and [str.split()] see it. *)
Definition is_space (c : char) : bool :=
  between 9 13 c || between 28 32 c || (c =? 133)%N || (c =? 160)%N
  || (c =? 5760)%N || between 8192 8202 c || (c =? 8232)%N || (c =? 8233)%N
  || (c =? 8239)%N || (c =? 8287)%N || (c =? 12288)%N.

(** The maximal runs of characters satisfying [p], left to right.  [cur] is
    the run being read, last character first. *)
Fixpoint runs_from (p : char -> bool) (cur : str) (s : str) : list str :=
  match s with
  | [] => match cur with [] => [] | _ => [rev cur] end
  | c :: rest =>
      if p c then runs_from p (c :: cur) rest
      else match cur with
           | [] => runs_from p [] rest
           | _ => rev cur :: runs_from p [] rest
           end
  end.

Definition runs (p : char -> bool) (s : str) : list str := runs_from p [] s.

(** [s.split()] without arguments: the maximal runs of non-space
    characters. *)
Definition split (s : str) : list str := runs (fun c => negb (is_space c)) s.

(** [sep.join(words)] *)
Fixpoint join (sep : str) (words : list str) : str :=
  match words with
  | [] => []
  | [w] => w
  | w :: rest => w ++ sep ++ join sep rest
  end.

End Str.

Import Str.

(** ** Regular expressions *)

Module Re.

Inductive regex : Type :=
| Void                               (* matches nothing *)
| Eps                                (* the empty string *)
| Class (p : char -> bool)           (* one character of a class *)
| Cat (r1 r2 : regex)
| Alt (r1 r2 : regex)
| Star (r : regex).

Fixpoint nullable (r : regex) : bool :=
  match r with
  | Void => false
  | Eps => true
  | Class _ => false
  | Cat r1 r2 => nullable r1 && nullable r2
  | Alt r1 r2 => nullable r1 || nullable r2
  | Star _ => true
  end.

Fixpoint deriv (c : char) (r : regex) : regex :=
  match r with
  | Void => Void
  | Eps => Void
  | Class p => if p c then Eps else Void
  | Cat r1 r2 =>
      if nullable r1 then Alt (Cat (deriv c r1) r2) (deriv c r2)
      else Cat (deriv c r1) r2
  | Alt r1 r2 => Alt (deriv c r1) (deriv c r2)
  | Star r1 => Cat (deriv c r1) (Star r1)
  end.

(** The strings a regular expression denotes. *)
Inductive matches : regex -> str -> Prop :=
| MEps : matches Eps []
| MClass (p : char -> bool) (c : char) : p c = true -> matches (Class p) [c]
| MCat (r1 r2 : regex) (s1 s2 : str) :
    matches r1 s1 -> matches r2 s2 -> matches (Cat r1 r2) (s1 ++ s2)
| MAltL (r1 r2 : regex) (s : str) : matches r1 s -> matches (Alt r1 r2) s
| MAltR (r1 r2 : regex) (s : str) : matches r2 s -> matches (Alt r1 r2) s
| MStarNil (r : regex) : matches (Star r) []
| MStarApp (r : regex) (s1 s2 : str) :
    matches r s1 -> matches (Star r) s2 -> matches (Star r) (s1 ++ s2).

(** [re.fullmatch(r, s)] is not [None]. *)
Fixpoint fullmatch (r : regex) (s : str) : bool :=
  match s with
  | [] => nullable r
  | c :: rest => fullmatch (deriv c r) rest
  end.

Definition Lit (c : char) : regex := Class (N.eqb c).
Definition Opt (r : regex) : regex := Alt r Eps.
Definition Plus (r : regex) : regex := Cat r (Star r).

Fixpoint times (n : nat) (r : regex) : regex :=
  match n with
  | O => Eps
  | S k => Cat r (times k r)
  end.

Fixpoint upto (n : nat) (r : regex) : regex :=
  match n with
  | O => Eps
  | S k => Opt (Cat r (upto k r))
  end.

(** [r{lo,hi}] *)
Definition Rep (lo hi : nat) (r : regex) : regex :=
  Cat (times lo r) (upto (hi - lo) r).

End Re.

(** ** Results of Python code that can raise *)

Inductive exn : Type :=
| KeyError (key : str).

Inductive py (A : Type) : Type :=
| Ok (a : A)
| Raise (e : exn).
Arguments Ok {A} a.
Arguments Raise {A} e.

Definition bind {A B : Type} (m : py A) (k : A -> py B) : py B :=
  match m with
  | Ok a => k a
  | Raise e => Raise e
  end.

Notation "x <- m ;; k" := (bind m (fun x => k))
  (at level 61, m at next level, right associativity).

(** A [for] loop whose body can raise and otherwise yields one value. *)
Fixpoint for_each {A B : Type} (body : A -> py B) (xs : list A) : py (list B) :=
  match xs with
  | [] => Ok []
  | x :: rest =>
      y <- body x ;;
      ys <- for_each body rest ;;
      Ok (y :: ys)
  end.

(** ** Containers *)

(** [list(dict.fromkeys(xs))]: the first occurrence of every element, in the
    order of the list.  It is also the order in which the distinct elements
    of a sequence of [set.add] calls were first added. *)
Fixpoint fromkeys_from (seen : list str) (xs : list str) : list str :=
  match xs with
  | [] => []
  | x :: rest =>
      if mem x seen then fromkeys_from seen rest
      else x :: fromkeys_from (x :: seen) rest
  end.

Definition fromkeys (xs : list str) : list str := fromkeys_from [] xs.

(** [xs[:limit]]; a negative limit counts from the end. *)
Definition slice_to {A : Type} (xs : list A) (limit : Z) : list A :=
  if (0 <=? limit)%Z then firstn (Z.to_nat limit) xs
  else firstn (length xs - Z.to_nat (- limit)) xs.

(** ** What the module takes from its environment

    [set_order adds] is the order in which CPython iterates the [set] built
    by the calls [add x] for [x] in [adds]: some arrangement of the distinct
    elements, fixed by the string hash of the running process.

    [extract query choices limit] is the list of the names in
    [rapidfuzz.process.extract(query, choices, scorer=fuzz.WRatio,
    limit=limit, score_cutoff=80)], in the order of the result.  It stands
    for the calls that return; the library rejects a negative [limit] with
    an exception. *)
Record runtime : Type := {
  set_order : list str -> list str;
  extract : str -> list str -> Z -> list str
}.

(** A set iterates every distinct element once. *)
Definition set_order_ok (rt : runtime) : Prop :=
  forall adds, Permutation (set_order rt adds) (fromkeys adds).

(** [process.extract] returns entries of [choices]. *)
Definition extract_ok (rt : runtime) : Prop :=
  forall query choices limit name,
    In name (extract rt query choices limit) -> In name choices.

(** ** The module *)

Definition _ALIAS_TO_TICKER : list (str * str) :=
  [ (u "tesla", u "TSLA");
    (u "apple", u "AAPL");
    (u "microsoft", u "MSFT");
    (u "nvidia", u "NVDA");
    (u "google", u "GOOGL");
    (u "alphabet", u "GOOGL");
    (u "amazon", u "AMZN");
    (u "meta", u "META");
    (u "facebook", u "META");
    (u "netflix", u "NFLX");
    (u "oracle", u "ORCL");
    (u "adobe", u "ADBE");
    (u "volvo", u "VOLV-B.ST");
    (u "volvob", u "VOLV-B.ST");
    (u "ericsson", u "ERIC-B.ST");
    (u "ericson", u "ERIC-B.ST");
    (u "eric-b", u "ERIC-B.ST");
    (u "astra", u "AZN");
    (u "astrazeneca", u "AZN");
    (u "h&m", u "HM-B.ST");
    (u "hm", u "HM-B.ST");
    (u "sandvik", u "SAND.ST");
    (u "atlas copco", u "ATCO-B.ST");
    (u "atlas", u "ATCO-B.ST");
    (u "evolution", u "EVO.ST") ].

(** [list(d.keys())], [k in d], [d[k]] *)
Definition keys (d : list (str * str)) : list str := map fst d.

Fixpoint get (d : list (str * str)) (k : str) : option str :=
  match d with
  | [] => None
  | (k', v) :: rest => if eqb k k' then Some v else get rest k
  end.

Definition getitem (d : list (str * str)) (k : str) : py str :=
  match get d k with
  | Some v => Ok v
  | None => Raise (KeyError k)
  end.

Definition _STOCKHOLM_SUFFIX_CANDIDATES : list str :=
  [ u "VOLV-A"; u "VOLV-B"; u "ERIC-A"; u "ERIC-B"; u "HM-B"; u "SAND";
    u "ATCO-A"; u "ATCO-B"; u "EVO" ].

Definition _ST_SUFFIX : str := u ".ST".

(** The character class of [_WORDS_RX]: the ASCII letters [A-Za-z], the six
    Nordic letters U+00C5 U+00C4 U+00D6 U+00E5 U+00E4 U+00F6 (A with ring, A
    and O with diaeresis, capital and small), the hyphen and the period. *)
Definition word_char (c : char) : bool :=
  between 65 90 c || between 97 122 c
  || (c =? 197)%N || (c =? 196)%N || (c =? 214)%N
  || (c =? 229)%N || (c =? 228)%N || (c =? 246)%N
  || (c =? 45)%N || (c =? 46)%N.

Definition _WORDS_RX : Re.regex := Re.Plus (Re.Class word_char).

(** [_WORDS_RX.findall(s)]: the successive leftmost greedy matches of a
    pattern [[class]+] are the maximal runs of characters of the class. *)
Definition _WORDS_RX_findall (s : str) : list str := runs word_char s.

Definition _normalize_company_text (text : str) : str :=
  join (u " ") (_WORDS_RX_findall (lower text)).

Definition _maybe_append_st (ticker : str) : str :=
  let t := upper ticker in
  if mem t _STOCKHOLM_SUFFIX_CANDIDATES && negb (endswith t (u ".ST"))
  then t ++ _ST_SUFFIX
  else t.

(** [[A-Z]{1,5}(\-[A-Z])?(\.[A-Z]{2,4})?] *)
Definition A_Z : Re.regex := Re.Class (between 65 90).

Definition ticker_rx : Re.regex :=
  Re.Cat (Re.Rep 1 5 A_Z)
    (Re.Cat (Re.Opt (Re.Cat (Re.Lit 45%N) A_Z))
            (Re.Opt (Re.Cat (Re.Lit 46%N) (Re.Rep 2 4 A_Z)))).

(** Step 1: the tokens that look like tickers, in the order of the text. *)
Definition pattern_adds (t : str) : list str :=
  flat_map
    (fun token =>
       let up := upper token in
       if Re.fullmatch ticker_rx up then [_maybe_append_st up] else [])
    (split t).

(** Step 2: the tickers of the aliases the fuzzy matcher returns. *)
Definition fuzzy_adds (rt : runtime) (t : str) (limit : Z) : py (list str) :=
  let choices := keys _ALIAS_TO_TICKER in
  let matches := extract rt t choices limit in
  for_each (getitem _ALIAS_TO_TICKER) matches.

(** Step 3: the words that are alias keys. *)
Definition exact_adds (t : str) : list str :=
  flat_map
    (fun w =>
       if mem w (keys _ALIAS_TO_TICKER)
       then match get _ALIAS_TO_TICKER w with Some v => [v] | None => [] end
       else [])
    (split t).

(** The calls [found.add(x)] of the three steps, in program order. *)
Definition found_adds (rt : runtime) (text : str) (limit : Z) : py (list str) :=
  let t := _normalize_company_text text in
  let step1 := pattern_adds t in
  step2 <- fuzzy_adds rt t limit ;;
  let step3 := exact_adds t in
  Ok (step1 ++ step2 ++ step3).

Definition resolve_tickers_from_text (rt : runtime) (text : str) (limit : Z)
  : py (list str) :=
  adds <- found_adds rt text limit ;;
  let found := set_order rt adds in
  let normalized := map _maybe_append_st found in
  Ok (slice_to (fromkeys normalized) limit).

(** The default value of [limit]. *)
Definition default_limit : Z := 3.

(** ** Runtimes used in the examples

    Two ways a process may iterate a set, and a simple matcher with the
    interface of [process.extract]: the choices that are words of the query,
    at most [limit] of them. *)
Definition insertion_order (adds : list str) : list str := fromkeys adds.

Definition reverse_order (adds : list str) : list str := rev (fromkeys adds).

Definition word_extract (query : str) (choices : list str) (limit : Z)
  : list str :=
  firstn (Z.to_nat limit) (filter (fun c => mem c (split query)) choices).

Definition rt_insertion : runtime :=
  {| set_order := insertion_order; extract := word_extract |}.

Definition rt_reverse : runtime :=
  {| set_order := reverse_order; extract := word_extract |}.

(** Small letter a with ring above, U+00E5. *)
Definition a_ring : char := 229%N.

(** ** Vocabulary of the specification *)

(** The order in which the candidates were first discovered. *)
Definition first_discovered (adds : list str) : list str := fromkeys adds.

(** A token made of one to five ASCII letters. *)
Definition ascii_letter (c : char) : bool := between 65 90 c || between 97 122 c.

Definition short_letter_token (tok : str) : bool :=
  (1 <=? length tok)%nat && (length tok <=? 5)%nat && forallb ascii_letter tok.

(** A bare Stockholm symbol. *)
Definition bare_stockholm (x : str) : bool := mem x _STOCKHOLM_SUFFIX_CANDIDATES.

(** ** More string operations *)

(** [s.startswith(prefix)] *)
Fixpoint startswith (s prefix : str) : bool :=
  match prefix with
  | [] => true
  | p :: prefix' =>
      match s with
      | [] => false
      | c :: s' => (c =? p)%N && startswith s' prefix'
      end
  end.

(** [needle in s] *)
Fixpoint contains (s needle : str) : bool :=
  startswith s needle
  || match s with
     | [] => false
     | _ :: rest => contains rest needle
     end.

(** [s.lstrip(...)], [s.rstrip(...)] and [s.strip(...)] for a set of
    characters given by its membership test. *)
Fixpoint lstrip_with (p : char -> bool) (s : str) : str :=
  match s with
  | [] => []
  | c :: rest => if p c then lstrip_with p rest else s
  end.

Definition rstrip_with (p : char -> bool) (s : str) : str :=
  rev (lstrip_with p (rev s)).

Definition strip_with (p : char -> bool) (s : str) : str :=
  rstrip_with p (lstrip_with p s).

(** [s.strip()] *)
Definition strip (s : str) : str := strip_with is_space s.

(** [s.strip(",")] *)
Definition strip_commas (s : str) : str := strip_with (N.eqb 44) s.

(** [s.split(sep, 1)[1]] for a one-character [sep] that occurs in [s]: what
    follows its first occurrence. *)
Fixpoint after_first (sep : char) (s : str) : str :=
  match s with
  | [] => []
  | c :: rest => if (c =? sep)%N then rest else after_first sep rest
  end.

(** ** The reports of [finance_api.py]

    The market data come from a remote service.  What a report does with a
    ticker depends only on how the body of its [try] ends: with the text it
    appends, or with an exception [e], of which the handler uses [str(e)].
    The outcome may differ from one call to the next, so it is indexed by
    the position of the ticker in the loop. *)
Inductive attempt : Type :=
| Done (text : str)
| Failed (message : str).

Record market : Type := {
  (* [format_quote(get_quote(t))] *)
  quote_try : nat -> str -> attempt;
  (* [format_insight(get_insights(t))] *)
  insight_try : nat -> str -> attempt;
  (* the block [get_freeform_stock_report] builds from [get_quote],
     [get_insights], [analyze_signals] and the formatters *)
  freeform_try : nat -> str -> attempt
}.

Definition QUOTE_FAILED : str :=
  u ": kunde inte h" ++ [228%N] ++ u "mta quote " ++ [8211%N] ++ u " ".

Definition INSIGHTS_FAILED : str :=
  u ": kunde inte r" ++ [228%N] ++ u "kna insights " ++ [8211%N] ++ u " ".

Definition FREEFORM_FAILED : str :=
  u ": kunde inte h" ++ [228%N] ++ u "mta " ++ [8211%N] ++ u " ".

Definition NO_COMPANIES : str :=
  u "Hittade inga bolag i din fr" ++ [229%N] ++ u "ga. Prova t.ex. 'pris p"
  ++ [229%N] ++ u " tesla idag' eller 'apple ig" ++ [229%N]
  ++ u "r vs idag'.".

Definition NEWLINE : str := [10%N].

(** One turn of the loop of [get_stock_report]; the state is the number of
    tickers handled and the list [lines]. *)
Definition stock_report_body (m : market) (st : nat * list str) (t : str)
  : nat * list str :=
  let '(i, lines) := st in
  let lines :=
    match quote_try m i t with
    | Done block => lines ++ [block]
    | Failed e => lines ++ [upper t ++ QUOTE_FAILED ++ e]
    end in
  let lines :=
    match insight_try m i t with
    | Done block => lines ++ [block]
    | Failed e => lines ++ [upper t ++ INSIGHTS_FAILED ++ e]
    end in
  (S i, lines ++ [[]]).

Definition stock_report_lines (m : market) (tickers : list str) : list str :=
  snd (fold_left (stock_report_body m) tickers (O, [])).

Definition get_stock_report (m : market) (tickers : list str) : str :=
  strip (join NEWLINE (stock_report_lines m tickers)).

(** One turn of the loop of [get_freeform_stock_report]. *)
Definition freeform_body (m : market) (st : nat * list str) (t : str)
  : nat * list str :=
  let '(i, lines) := st in
  let lines :=
    match freeform_try m i t with
    | Done block => lines ++ [block]
    | Failed e => lines ++ [t ++ FREEFORM_FAILED ++ e]
    end in
  (S i, lines ++ [[]]).

Definition freeform_lines (m : market) (tickers : list str) : list str :=
  snd (fold_left (freeform_body m) tickers (O, [])).

Definition get_freeform_stock_report (rt : runtime) (m : market) (text : str)
  : py str :=
  tickers <- resolve_tickers_from_text rt text 3 ;;
  match tickers with
  | [] => Ok NO_COMPANIES
  | _ => Ok (strip (join NEWLINE (freeform_lines m tickers)))
  end.

(** ** The stock branches of [main] in [cli.py] *)

Definition STOCK_KEYWORDS_SV : list str :=
  [ u "pris"; u "kurs"; u "aktie"; u "idag"; u "ig" ++ [229%N] ++ u "r";
    [246%N] ++ u "verpris"; [246%N] ++ u "verprisad"; u "rsi"; u "trend";
    u "52w"; u "52 veckor"; u "volatilitet";
    u "j" ++ [228%N] ++ u "mf" ++ [246%N] ++ u "r";
    u "j" ++ [228%N] ++ u "mf" ++ [246%N] ++ u "relse" ].

Definition STOCK_KEYWORDS_EN : list str :=
  [ u "price"; u "stock"; u "today"; u "yesterday"; u "overpriced"; u "rsi";
    u "trend"; u "52w"; u "volatility"; u "compare"; u "comparison" ].

Definition STOCK_KEYWORDS_AR : list str :=
  [ [1587; 1593; 1585]%N; [1587; 1607; 1605]%N;
    [1575; 1604; 1610; 1608; 1605]%N; [1571; 1605; 1587]%N;
    [1605; 1576; 1575; 1604; 1594]%N;
    [1605; 1576; 1575; 1604; 1594; 32; 1601; 1610; 1607]%N; u "rsi";
    [1575; 1578; 1580; 1575; 1607]%N; [1578; 1602; 1604; 1576]%N;
    [1605; 1602; 1575; 1585; 1606; 1577]%N; u "52" ].

Definition AR_STOCK_PREFIXES : list str :=
  [ [1571; 1587; 1607; 1605; 58]%N; [1575; 1587; 1607; 1605; 58]%N ].

(** [low.startswith("/stock")] *)
Definition is_stock_command (user_input : str) : bool :=
  startswith (lower (strip user_input)) (u "/stock").

(** [[p.strip().upper() for p in parts[1:]]] with
    [parts = user_input.split()] *)
Definition stock_command_tickers (user_input : str) : list str :=
  map (fun p => upper (strip p)) (tl (split user_input)).

(** The condition of the prefix branch. *)
Definition is_prefix_command (user_input : str) : bool :=
  let low := lower (strip user_input) in
  startswith low (u "aktier:") || startswith low (u "stocks:")
  || existsb (startswith (strip user_input)) AR_STOCK_PREFIXES.

(** [[t.strip().upper().strip(",") for t in tickers_part.split()]] *)
Definition prefix_command_tickers (user_input : str) : list str :=
  let tickers_part :=
    if contains user_input (u ":") then after_first 58%N user_input else [] in
  map (fun t => strip_commas (upper (strip t))) (split tickers_part).

(** The condition of the branch for natural stock questions: a keyword of
    one of the three languages, or a ticker found in the text. *)
Definition is_stock_question (rt : runtime) (user_input : str) : py bool :=
  let low := lower (strip user_input) in
  if existsb (contains low) STOCK_KEYWORDS_SV then Ok true
  else if existsb (contains low) STOCK_KEYWORDS_EN then Ok true
  else if existsb (contains user_input) STOCK_KEYWORDS_AR then Ok true
  else
    tickers <- resolve_tickers_from_text rt user_input default_limit ;;
    Ok (match tickers with [] => false | _ => true end).

(** ** Vocabulary of the additional properties *)

(** The characters of a normalized text: the small ASCII letters, the three
    small Nordic letters, the hyphen, the period and the space. *)
Definition normalized_char (c : char) : bool :=
  between 97 122 c || (c =? 229)%N || (c =? 228)%N || (c =? 246)%N
  || (c =? 45)%N || (c =? 46)%N || (c =? 32)%N.

(** The characters a regular expression can read. *)
Fixpoint alphabet (r : Re.regex) (c : char) : bool :=
  match r with
  | Re.Void => false
  | Re.Eps => false
  | Re.Class p => p c
  | Re.Cat r1 r2 => alphabet r1 c || alphabet r2 c
  | Re.Alt r1 r2 => alphabet r1 c || alphabet r2 c
  | Re.Star r1 => alphabet r1 c
  end.

(** ** Upper-casing as a parameter

    [upper] above is [str.upper] on the code points U+0000..U+00FF only.
    The properties whose subject is upper-casing itself are stated for the
    functions below, which take the case mapping as a parameter
    [py_upper] standing for [str.upper], and use of it only what
    [upper_contract] says. *)

(** The characters of a ticker: a capital ASCII letter, a hyphen or a
    period. *)
Definition ticker_char (c : char) : bool :=
  between 65 90 c || (c =? 45)%N || (c =? 46)%N.

(** Upper-casing twice is upper-casing once; a string of ticker characters
    is already in upper case; upper-casing a non-empty string without white
    space gives a non-empty string without white space. *)
Definition upper_contract (py_upper : str -> str) : Prop :=
  (forall s, py_upper (py_upper s) = py_upper s)
  /\ (forall s, forallb ticker_char s = true -> py_upper s = s)
  /\ (forall s,
        s <> [] -> forallb (fun c => negb (is_space c)) s = true ->
        py_upper s <> []
        /\ forallb (fun c => negb (is_space c)) (py_upper s) = true).

(** [_maybe_append_st], with [ticker.upper()] read as [py_upper ticker]. *)
Definition _maybe_append_st_with (py_upper : str -> str) (ticker : str) : str :=
  let t := py_upper ticker in
  if mem t _STOCKHOLM_SUFFIX_CANDIDATES && negb (endswith t (u ".ST"))
  then t ++ _ST_SUFFIX
  else t.

(** The tickers of the [/stock] branch, with [p.strip().upper()] read as
    [py_upper (strip p)]. *)
Definition stock_command_tickers_with (py_upper : str -> str)
           (user_input : str) : list str :=
  map (fun p => py_upper (strip p)) (tl (split user_input)).

(** Code points on which [lower_char] is the lower-casing of CPython: those
    up to U+00FF, and the Arabic block U+0600..U+06FF, which has no cased
    letter. *)
Definition lower_exact (c : char) : bool :=
  (c <=? 255)%N || between 1536 1791 c.



Definition freeform_line (m : market) (i : nat) (t : str) : str :=
  match freeform_try m i t with
  | Done block => block
  | Failed e => t ++ FREEFORM_FAILED ++ e
  end.

(** [enumerate(xs)] *)
Definition enumerate {A : Type} (xs : list A) : list (nat * A) :=
  combine (seq 0 (length xs)) xs.

(** A market whose every request fails with the same message. *)
Definition market_down : market :=
  {| quote_try := fun _ _ => Failed (u "offline");
     insight_try := fun _ _ => Failed (u "offline");
     freeform_try := fun _ _ => Failed (u "offline") |}.

(** * Properties *)

(** ** Strings and containers *)

Lemma eqb_eq (a b : str) : eqb a b = true <-> a = b.
Proof.
  unfold eqb. destruct (list_eq_dec N.eq_dec a b); split; congruence.
Qed.

Lemma eqb_refl (a : str) : eqb a a = true.
Proof. now apply eqb_eq. Qed.

Lemma mem_In (x : str) (xs : list str) : mem x xs = true <-> In x xs.
Proof.
  unfold mem. rewrite existsb_exists. split.
  - intros [y [Hy E]]. apply eqb_eq in E. now subst.
  - intros H. exists x. split; [assumption | apply eqb_refl].
Qed.

Lemma mem_not_In (x : str) (xs : list str) : mem x xs = false <-> ~ In x xs.
Proof.
  rewrite <- mem_In. destruct (mem x xs); split; congruence.
Qed.

Lemma fromkeys_from_In (x : str) (xs seen : list str) :
  In x (fromkeys_from seen xs) <-> In x xs /\ ~ In x seen.
Proof.
  revert seen. induction xs as [|y ys IH]; intros seen; simpl.
  - tauto.
  - destruct (mem y seen) eqn:E.
    + apply mem_In in E. rewrite IH. split.
      * intros [H1 H2]. tauto.
      * intros [[H1|H1] H2]; [subst; contradiction | tauto].
    + apply mem_not_In in E. simpl. rewrite IH. simpl. split.
      * intros [H|[H1 H2]]; [subst; tauto | tauto].
      * intros [[H1|H1] H2]; [tauto |].
        destruct (list_eq_dec N.eq_dec y x) as [->|N]; [tauto | right; tauto].
Qed.

Lemma fromkeys_In (x : str) (xs : list str) : In x (fromkeys xs) <-> In x xs.
Proof. unfold fromkeys. rewrite fromkeys_from_In. simpl. tauto. Qed.

Lemma fromkeys_from_NoDup (xs seen : list str) : NoDup (fromkeys_from seen xs).
Proof.
  revert seen. induction xs as [|y ys IH]; intros seen; simpl.
  - constructor.
  - destruct (mem y seen); [apply IH |].
    constructor; [| apply IH].
    rewrite fromkeys_from_In. simpl. tauto.
Qed.

Lemma fromkeys_NoDup (xs : list str) : NoDup (fromkeys xs).
Proof. apply fromkeys_from_NoDup. Qed.

Lemma fromkeys_from_id (xs seen : list str) :
  NoDup xs -> (forall x, In x xs -> ~ In x seen) ->
  fromkeys_from seen xs = xs.
Proof.
  revert seen. induction xs as [|y ys IH]; intros seen Hnd Hs; simpl.
  - reflexivity.
  - inversion Hnd as [|? ? Hy Hys]; subst.
    assert (E : mem y seen = false) by (apply mem_not_In, Hs; now left).
    rewrite E. f_equal. apply IH; [assumption |].
    intros x Hx [Hx'|Hx'].
    + subst. contradiction.
    + apply (Hs x); [now right | assumption].
Qed.

Lemma fromkeys_id (xs : list str) : NoDup xs -> fromkeys xs = xs.
Proof. intros H. apply fromkeys_from_id; [assumption | intros x _ []]. Qed.

Lemma firstn_incl {A : Type} (n : nat) (xs : list A) (x : A) :
  In x (firstn n xs) -> In x xs.
Proof.
  intros H. rewrite <- (firstn_skipn n xs). apply in_or_app. now left.
Qed.

Lemma firstn_NoDup {A : Type} (n : nat) (xs : list A) :
  NoDup xs -> NoDup (firstn n xs).
Proof.
  intros H. rewrite <- (firstn_skipn n xs) in H.
  now apply NoDup_app_remove_r in H.
Qed.

Lemma slice_to_incl {A : Type} (xs : list A) (limit : Z) (x : A) :
  In x (slice_to xs limit) -> In x xs.
Proof.
  unfold slice_to. destruct (0 <=? limit)%Z; apply firstn_incl.
Qed.

Lemma slice_to_NoDup {A : Type} (xs : list A) (limit : Z) :
  NoDup xs -> NoDup (slice_to xs limit).
Proof.
  unfold slice_to. intros H. destruct (0 <=? limit)%Z; now apply firstn_NoDup.
Qed.

(** ** Case mapping and the suffix normalizer *)

Ltac split_tests :=
  repeat match goal with
         | |- context [(?a <=? ?b)%N] => destruct (N.leb_spec a b); try lia
         | |- context [(?a =? ?b)%N] => destruct (N.eqb_spec a b); try lia
         end.

Lemma upper_char_idem (c : char) : upper (upper_char c) = upper_char c.
Proof.
  unfold upper_char, between. split_tests; simpl;
    unfold upper_char, between; split_tests; reflexivity.
Qed.

Lemma upper_app (a b : str) : upper (a ++ b) = upper a ++ upper b.
Proof. apply flat_map_app. Qed.

Lemma upper_idem (s : str) : upper (upper s) = upper s.
Proof.
  induction s as [|c s IH]; [reflexivity |].
  change (upper (c :: s)) with (upper_char c ++ upper s).
  now rewrite upper_app, upper_char_idem, IH.
Qed.

Lemma bare_stockholm_cases (t : str) :
  mem t _STOCKHOLM_SUFFIX_CANDIDATES = true ->
  In t _STOCKHOLM_SUFFIX_CANDIDATES.
Proof. apply mem_In. Qed.

Lemma _maybe_append_st_idem (ticker : str) :
  _maybe_append_st (_maybe_append_st ticker) = _maybe_append_st ticker.
Proof.
  unfold _maybe_append_st at 2 3.
  remember (upper ticker) as t eqn:Ht.
  destruct (mem t _STOCKHOLM_SUFFIX_CANDIDATES && negb (endswith t (u ".ST")))
    eqn:E.
  - apply andb_true_iff in E. destruct E as [E _].
    apply bare_stockholm_cases in E. simpl in E.
    repeat (destruct E as [E|E]; [subst t; rewrite <- E; reflexivity |]).
    destruct E.
  - unfold _maybe_append_st.
    replace (upper t) with t by (subst t; symmetry; apply upper_idem).
    now rewrite E.
Qed.

Lemma _maybe_append_st_not_bare (ticker : str) :
  bare_stockholm (_maybe_append_st ticker) = false.
Proof.
  unfold _maybe_append_st, bare_stockholm.
  remember (upper ticker) as t eqn:Ht.
  destruct (mem t _STOCKHOLM_SUFFIX_CANDIDATES) eqn:M; simpl.
  - apply bare_stockholm_cases in M. simpl in M.
    repeat (destruct M as [M|M]; [rewrite <- M; reflexivity |]).
    destruct M.
  - assumption.
Qed.

Lemma get_In_values (d : list (str * str)) (k v : str) :
  get d k = Some v -> In v (map snd d).
Proof.
  induction d as [|[k' v'] d IH]; simpl; [discriminate |].
  destruct (eqb k k').
  - intros [= ->]. now left.
  - intros H. right. now apply IH.
Qed.

Lemma get_In_keys (d : list (str * str)) (k : str) :
  In k (keys d) -> exists v, get d k = Some v.
Proof.
  induction d as [|[k' v'] d IH]; simpl; [intros [] |].
  destruct (eqb k k') eqn:E.
  - intros _. now exists v'.
  - intros [H|H].
    + subst. now rewrite eqb_refl in E.
    + now apply IH.
Qed.

Lemma alias_tickers_normalized :
  Forall (fun v => _maybe_append_st v = v) (map snd _ALIAS_TO_TICKER).
Proof. repeat constructor. Qed.

Lemma alias_ticker_normalized (k v : str) :
  get _ALIAS_TO_TICKER k = Some v -> _maybe_append_st v = v.
Proof.
  intros H. apply get_In_values in H.
  exact (proj1 (Forall_forall _ _) alias_tickers_normalized v H).
Qed.

(** ** The candidates of the three steps *)

Lemma pattern_adds_In (t x : str) :
  In x (pattern_adds t) ->
  exists token,
    In token (split t)
    /\ Re.fullmatch ticker_rx (upper token) = true
    /\ x = _maybe_append_st (upper token).
Proof.
  unfold pattern_adds. rewrite in_flat_map. intros [token [Ht Hx]].
  exists token. destruct (Re.fullmatch ticker_rx (upper token)).
  - destruct Hx as [Hx|[]]. auto.
  - destruct Hx.
Qed.

Lemma pattern_adds_intro (t token : str) :
  In token (split t) ->
  Re.fullmatch ticker_rx (upper token) = true ->
  In (_maybe_append_st (upper token)) (pattern_adds t).
Proof.
  intros Ht Hm. unfold pattern_adds. rewrite in_flat_map.
  exists token. split; [assumption |]. rewrite Hm. now left.
Qed.

Lemma exact_adds_In (t x : str) :
  In x (exact_adds t) ->
  exists w, In w (split t) /\ get _ALIAS_TO_TICKER w = Some x.
Proof.
  unfold exact_adds. rewrite in_flat_map. intros [w [Hw Hx]].
  exists w. split; [assumption |].
  destruct (mem w (keys _ALIAS_TO_TICKER)); [| destruct Hx].
  destruct (get _ALIAS_TO_TICKER w); [| destruct Hx].
  destruct Hx as [->|[]]. reflexivity.
Qed.

Lemma for_each_getitem_In (d : list (str * str)) (names vs : list str) (x : str) :
  for_each (getitem d) names = Ok vs ->
  In x vs -> exists name, In name names /\ get d name = Some x.
Proof.
  revert vs. induction names as [|n names IH]; simpl; intros vs H Hx.
  - injection H as <-. destruct Hx.
  - unfold getitem in H at 1. destruct (get d n) as [v|] eqn:G; simpl in H;
      [| discriminate].
    destruct (for_each (getitem d) names) as [ys|] eqn:F; simpl in H;
      [| discriminate].
    injection H as <-. destruct Hx as [<-|Hx].
    + exists n. split; [now left | assumption].
    + destruct (IH ys eq_refl Hx) as [name [Hn Hg]].
      exists name. split; [now right | assumption].
Qed.

Lemma for_each_getitem_total (d : list (str * str)) (names : list str) :
  (forall name, In name names -> In name (keys d)) ->
  exists vs, for_each (getitem d) names = Ok vs.
Proof.
  induction names as [|n names IH]; simpl; intros H.
  - now exists [].
  - destruct (get_In_keys d n) as [v Hv]; [apply H; now left |].
    destruct IH as [vs Hvs]; [intros name Hn; apply H; now right |].
    exists (v :: vs). unfold getitem at 1. rewrite Hv. simpl.
    now rewrite Hvs.
Qed.

Lemma found_adds_inv (rt : runtime) (text : str) (limit : Z) (adds : list str) :
  found_adds rt text limit = Ok adds ->
  exists fz,
    fuzzy_adds rt (_normalize_company_text text) limit = Ok fz
    /\ adds = pattern_adds (_normalize_company_text text) ++ fz
              ++ exact_adds (_normalize_company_text text).
Proof.
  unfold found_adds.
  destruct (fuzzy_adds rt (_normalize_company_text text) limit) as [fz|];
    simpl; [| discriminate].
  intros [= <-]. now exists fz.
Qed.

Lemma found_adds_total (rt : runtime) (text : str) (limit : Z) :
  extract_ok rt -> exists adds, found_adds rt text limit = Ok adds.
Proof.
  intros Hex. unfold found_adds, fuzzy_adds.
  destruct (for_each_getitem_total _ALIAS_TO_TICKER
              (extract rt (_normalize_company_text text)
                 (keys _ALIAS_TO_TICKER) limit)) as [fz Hfz].
  - intros name Hn. exact (Hex _ _ _ _ Hn).
  - rewrite Hfz. simpl. eauto.
Qed.

Lemma found_adds_normalized (rt : runtime) (text : str) (limit : Z)
      (adds : list str) (x : str) :
  found_adds rt text limit = Ok adds -> In x adds -> _maybe_append_st x = x.
Proof.
  intros H Hx. apply found_adds_inv in H. destruct H as [fz [Hfz ->]].
  apply in_app_or in Hx. destruct Hx as [Hx|Hx].
  - apply pattern_adds_In in Hx. destruct Hx as [token [_ [_ ->]]].
    apply _maybe_append_st_idem.
  - apply in_app_or in Hx. destruct Hx as [Hx|Hx].
    + destruct (for_each_getitem_In _ _ _ _ Hfz Hx) as [name [_ Hg]].
      exact (alias_ticker_normalized _ _ Hg).
    + apply exact_adds_In in Hx. destruct Hx as [w [_ Hg]].
      exact (alias_ticker_normalized _ _ Hg).
Qed.

(** The returned list is the head of the set's iteration: the last
    normalisation and the [dict.fromkeys] change nothing. *)
Lemma resolve_iteration (rt : runtime) (text : str) (limit : Z)
      (adds : list str) :
  set_order_ok rt ->
  found_adds rt text limit = Ok adds ->
  resolve_tickers_from_text rt text limit
  = Ok (slice_to (set_order rt adds) limit).
Proof.
  intros Hord Hadds. unfold resolve_tickers_from_text. rewrite Hadds. simpl.
  assert (Hmap : map _maybe_append_st (set_order rt adds) = set_order rt adds).
  { rewrite <- (map_id (set_order rt adds)) at 2. apply map_ext_in.
    intros x Hx. apply (found_adds_normalized _ _ _ _ _ Hadds).
    apply fromkeys_In. exact (Permutation_in _ (Hord adds) Hx). }
  rewrite Hmap. rewrite fromkeys_id; [reflexivity |].
  apply (Permutation_NoDup (Permutation_sym (Hord adds))).
  apply fromkeys_NoDup.
Qed.

(** ** The example runtimes satisfy the contracts *)

Lemma insertion_order_ok (ex : str -> list str -> Z -> list str) :
  set_order_ok {| set_order := insertion_order; extract := ex |}.
Proof. intros adds. apply Permutation_refl. Qed.

Lemma reverse_order_ok (ex : str -> list str -> Z -> list str) :
  set_order_ok {| set_order := reverse_order; extract := ex |}.
Proof. intros adds. apply Permutation_sym, Permutation_rev. Qed.

Lemma word_extract_ok (ord : list str -> list str) :
  extract_ok {| set_order := ord; extract := word_extract |}.
Proof.
  intros query choices limit name H. simpl in H. unfold word_extract in H.
  apply firstn_incl in H. apply filter_In in H. tauto.
Qed.

(** ** More on [dict.fromkeys] and slices *)

Lemma fromkeys_from_prefix (p seen rest : list str) :
  NoDup p -> (forall x, In x p -> ~ In x seen) ->
  fromkeys_from seen (p ++ rest) = p ++ fromkeys_from (rev p ++ seen) rest.
Proof.
  revert seen. induction p as [|y p IH]; intros seen Hnd Hs; simpl.
  - reflexivity.
  - inversion Hnd as [|? ? Hy Hp]; subst.
    assert (E : mem y seen = false) by (apply mem_not_In, Hs; now left).
    rewrite E. f_equal. rewrite IH.
    + now rewrite <- app_assoc.
    + assumption.
    + intros x Hx [Hx'|Hx'].
      * subst. contradiction.
      * apply (Hs x); [now right | assumption].
Qed.

Lemma fromkeys_prefix (p rest : list str) :
  NoDup p -> exists tail, fromkeys (p ++ rest) = p ++ tail.
Proof.
  intros H. exists (fromkeys_from (rev p ++ []) rest).
  apply fromkeys_from_prefix; [assumption | intros x _ []].
Qed.

Lemma NoDup_all_equal (x : str) (xs : list str) :
  NoDup xs -> In x xs -> (forall y, In y xs -> y = x) -> xs = [x].
Proof.
  intros Hnd Hin Hall. destruct xs as [|a [|b xs]].
  - destruct Hin.
  - f_equal. apply Hall. now left.
  - exfalso. inversion Hnd as [|? ? Ha _]; subst. apply Ha.
    rewrite (Hall a), (Hall b); simpl; auto.
Qed.

Lemma slice_to_length {A : Type} (xs : list A) (limit : Z) :
  (0 <= limit)%Z -> (limit <= Z.of_nat (length xs))%Z ->
  Z.of_nat (length (slice_to xs limit)) = limit.
Proof.
  intros H0 H1. unfold slice_to.
  destruct (Z.leb_spec 0 limit); [| lia].
  rewrite length_firstn. lia.
Qed.

Lemma slice_to_zero {A : Type} (xs : list A) : slice_to xs 0 = [].
Proof. reflexivity. Qed.

Lemma slice_to_all {A : Type} (xs : list A) (limit : Z) :
  (Z.of_nat (length xs) <= limit)%Z -> slice_to xs limit = xs.
Proof.
  intros H. unfold slice_to. destruct (Z.leb_spec 0 limit); [| lia].
  apply firstn_all2. lia.
Qed.

(** ** The derivative matcher decides the language *)

Lemma cat_inv (r1 r2 : Re.regex) (s : str) :
  Re.matches (Re.Cat r1 r2) s ->
  exists s1 s2, s = s1 ++ s2 /\ Re.matches r1 s1 /\ Re.matches r2 s2.
Proof. intros H. inversion H; subst. eauto. Qed.

Lemma nullable_matches (r : Re.regex) :
  Re.nullable r = true <-> Re.matches r [].
Proof.
  induction r as [| |p|r1 IH1 r2 IH2|r1 IH1 r2 IH2|r IH]; simpl.
  - split; [discriminate | intros H; inversion H].
  - split; [constructor | reflexivity].
  - split; [discriminate | intros H; inversion H].
  - rewrite andb_true_iff, IH1, IH2. split.
    + intros [H1 H2]. exact (Re.MCat r1 r2 [] [] H1 H2).
    + intros H. apply cat_inv in H. destruct H as [s1 [s2 [E [H1 H2]]]].
      symmetry in E. apply app_eq_nil in E. destruct E as [-> ->].
      now split.
  - rewrite orb_true_iff, IH1, IH2. split.
    + intros [H|H]; [now apply Re.MAltL | now apply Re.MAltR].
    + intros H. inversion H; subst; tauto.
  - split; [constructor | reflexivity].
Qed.

Lemma star_cons (r : Re.regex) (c : char) (s : str) :
  Re.matches (Re.Star r) (c :: s) ->
  exists s1 s2,
    s = s1 ++ s2 /\ Re.matches r (c :: s1) /\ Re.matches (Re.Star r) s2.
Proof.
  intros H. remember (Re.Star r) as r' eqn:Er. remember (c :: s) as s' eqn:Es.
  revert Er Es.
  induction H as [| | | | | |r0 s1 s2 H1 _ H2 IH2]; intros Er Es;
    try discriminate.
  injection Er as ->. destruct s1 as [|c1 s1].
  - simpl in Es. now apply IH2.
  - simpl in Es. injection Es as -> <-. now exists s1, s2.
Qed.

Lemma deriv_matches (r : Re.regex) (c : char) (s : str) :
  Re.matches (Re.deriv c r) s <-> Re.matches r (c :: s).
Proof.
  revert s. induction r as [| |p|r1 IH1 r2 IH2|r1 IH1 r2 IH2|r IH];
    intros s; simpl.
  - split; intros H; inversion H.
  - split; intros H; inversion H.
  - destruct (p c) eqn:Hp; split; intros H; inversion H; subst.
    + now constructor.
    + constructor.
    + congruence.
  - assert (Hleft : Re.matches (Re.Cat (Re.deriv c r1) r2) s ->
                    Re.matches (Re.Cat r1 r2) (c :: s)).
    { intros H. apply cat_inv in H. destruct H as [s1 [s2 [-> [H1 H2]]]].
      apply IH1 in H1. exact (Re.MCat r1 r2 (c :: s1) s2 H1 H2). }
    assert (Hcons : forall s1 s2, c :: s = s1 ++ s2 ->
                      Re.matches r1 s1 -> Re.matches r2 s2 ->
                      (Re.matches (Re.Cat (Re.deriv c r1) r2) s)
                      \/ (Re.matches r1 [] /\ Re.matches r2 (c :: s))).
    { intros s1 s2 E H1 H2. destruct s1 as [|c1 s1]; simpl in E.
      - right. subst s2. now split.
      - left. injection E as <- ->. apply IH1 in H1.
        now constructor. }
    destruct (Re.nullable r1) eqn:N; split.
    + intros H. inversion H; subst; [now apply Hleft |].
      apply (Re.MCat r1 r2 [] (c :: s)); [now apply nullable_matches |].
      now apply IH2.
    + intros H. apply cat_inv in H. destruct H as [s1 [s2 [E [H1 H2]]]].
      destruct (Hcons s1 s2 E H1 H2) as [Hl|[_ Hr]].
      * now apply Re.MAltL.
      * apply Re.MAltR. now apply IH2.
    + exact Hleft.
    + intros H. apply cat_inv in H. destruct H as [s1 [s2 [E [H1 H2]]]].
      destruct (Hcons s1 s2 E H1 H2) as [Hl|[Hn _]]; [assumption |].
      apply nullable_matches in Hn. congruence.
  - split; intros H; inversion H; subst.
    + apply Re.MAltL. now apply IH1.
    + apply Re.MAltR. now apply IH2.
    + apply Re.MAltL. now apply IH1.
    + apply Re.MAltR. now apply IH2.
  - split.
    + intros H. apply cat_inv in H. destruct H as [s1 [s2 [-> [H1 H2]]]].
      apply IH in H1. exact (Re.MStarApp r (c :: s1) s2 H1 H2).
    + intros H. apply star_cons in H.
      destruct H as [s1 [s2 [-> [H1 H2]]]]. apply IH in H1.
      now constructor.
Qed.

Lemma fullmatch_matches (r : Re.regex) (s : str) :
  Re.fullmatch r s = true <-> Re.matches r s.
Proof.
  revert r. induction s as [|c s IH]; intros r; simpl.
  - apply nullable_matches.
  - rewrite IH. apply deriv_matches.
Qed.

(** * The claims *)

(** C9.  Whatever the text and the limit, no element of the list returned by
    [resolve_tickers_from_text] is a bare Stockholm symbol, that is, a
    member of [_STOCKHOLM_SUFFIX_CANDIDATES]: the normalizer is applied to
    every element of the candidate set before truncation. *)
Theorem C9_no_bare_stockholm_symbol :
  forall (rt : runtime) (text : str) (limit : Z) (result : list str),
    resolve_tickers_from_text rt text limit = Ok result ->
    forall x, In x result -> ~ In x _STOCKHOLM_SUFFIX_CANDIDATES.
Proof.
  intros rt text limit result H x Hx.
  unfold resolve_tickers_from_text in H.
  destruct (found_adds rt text limit) as [adds|]; simpl in H; [| discriminate].
  injection H as <-.
  apply slice_to_incl in Hx. rewrite fromkeys_In in Hx.
  apply in_map_iff in Hx. destruct Hx as [y [<- _]].
  apply mem_not_In. apply _maybe_append_st_not_bare.
Qed.

Lemma C9_witness :
  resolve_tickers_from_text rt_insertion (u "ERIC-B") 3 = Ok [u "ERIC-B.ST"]
  /\ ~ In (u "ERIC-B.ST") _STOCKHOLM_SUFFIX_CANDIDATES.
Proof.
  assert (H : resolve_tickers_from_text rt_insertion (u "ERIC-B") 3
              = Ok [u "ERIC-B.ST"]) by (vm_compute; reflexivity).
  split; [exact H |].
  apply (C9_no_bare_stockholm_symbol rt_insertion (u "ERIC-B") 3 _ H).
  now left.
Defined.

(** C10.  [resolve_tickers_from_text] does not validate its limit: with
    [limit = 0] it returns the empty list, without raising, for every
    text. *)
Theorem C10_limit_zero_returns_empty :
  forall (rt : runtime) (text : str),
    extract_ok rt -> resolve_tickers_from_text rt text 0 = Ok [].
Proof.
  intros rt text Hex. unfold resolve_tickers_from_text.
  destruct (found_adds_total rt text 0 Hex) as [adds ->]. reflexivity.
Qed.

Lemma C10_witness :
  resolve_tickers_from_text rt_insertion (u "tesla") 0 = Ok [].
Proof.
  apply C10_limit_zero_returns_empty. apply word_extract_ok.
Defined.

(** C6.  For every input string, [resolve_tickers_from_text] returns
    normally: with a matcher that returns entries of its choices, no
    [KeyError] is raised.  When no detection strategy finds a candidate the
    result is the empty list; that is the case for [""], ["???"] and
    ["12345"] as soon as the matcher finds nothing for the empty query. *)
Theorem C6_never_raises_and_empty_when_nothing_found :
  forall (rt : runtime) (text : str) (limit : Z),
    set_order_ok rt ->
    extract_ok rt ->
    exists result,
      resolve_tickers_from_text rt text limit = Ok result
      /\ (found_adds rt text limit = Ok [] -> result = [])
      /\ (In text [u ""; u "???"; u "12345"] ->
          extract rt [] (keys _ALIAS_TO_TICKER) limit = [] ->
          result = []).
Proof.
  intros rt text limit Hord Hex.
  destruct (found_adds_total rt text limit Hex) as [adds Hadds].
  exists (slice_to (set_order rt adds) limit).
  split; [apply resolve_iteration; assumption |].
  assert (Hnil : adds = [] -> slice_to (set_order rt adds) limit = []).
  { intros ->. rewrite (Permutation_nil (Permutation_sym (Hord []))).
    unfold slice_to. destruct (0 <=? limit)%Z; apply firstn_nil. }
  split.
  - intros H. rewrite Hadds in H. injection H as ->. now apply Hnil.
  - intros Htext Hempty. apply Hnil.
    assert (Hn : _normalize_company_text text = []).
    { simpl in Htext.
      destruct Htext as [<-|[<-|[<-|[]]]]; vm_compute; reflexivity. }
    unfold found_adds, fuzzy_adds in Hadds. rewrite Hn, Hempty in Hadds.
    simpl in Hadds. now injection Hadds as <-.
Qed.

Lemma C6_witness :
  exists result,
    resolve_tickers_from_text rt_insertion (u "???") 3 = Ok result
    /\ (found_adds rt_insertion (u "???") 3 = Ok [] -> result = [])
    /\ (In (u "???") [u ""; u "???"; u "12345"] ->
        extract rt_insertion [] (keys _ALIAS_TO_TICKER) 3 = [] ->
        result = []).
Proof.
  apply C6_never_raises_and_empty_when_nothing_found.
  - apply insertion_order_ok.
  - apply word_extract_ok.
Defined.

(** C1, as the code has it.  When the three strategies discover more than
    [limit] distinct candidates (for a positive [limit]), the result has
    exactly [limit] elements, all distinct and all discovered candidates;
    they are the first [limit] elements in the iteration order of the
    candidate set, which need not be the order of discovery. *)
Theorem C1_limit_enforced_in_set_order :
  forall (rt : runtime) (text : str) (limit : Z) (adds : list str),
    set_order_ok rt ->
    found_adds rt text limit = Ok adds ->
    (0 < limit)%Z ->
    (limit < Z.of_nat (length (first_discovered adds)))%Z ->
    exists result,
      resolve_tickers_from_text rt text limit = Ok result
      /\ Z.of_nat (length result) = limit
      /\ NoDup result
      /\ (forall x, In x result -> In x adds)
      /\ result = firstn (Z.to_nat limit) (set_order rt adds).
Proof.
  intros rt text limit adds Hord Hadds Hpos Hmany.
  exists (slice_to (set_order rt adds) limit).
  pose proof (Permutation_length (Hord adds)) as Hlen.
  unfold first_discovered in Hmany.
  split; [apply resolve_iteration; assumption |].
  split; [apply slice_to_length; lia |].
  split.
  { apply slice_to_NoDup.
    apply (Permutation_NoDup (Permutation_sym (Hord adds))).
    apply fromkeys_NoDup. }
  split.
  { intros x Hx. apply slice_to_incl in Hx. apply fromkeys_In.
    exact (Permutation_in _ (Hord adds) Hx). }
  unfold slice_to. destruct (Z.leb_spec 0 limit); [reflexivity | lia].
Qed.

Lemma C1_witness :
  exists result,
    resolve_tickers_from_text rt_reverse (u "AAPL MSFT TSLA NVDA") 3 = Ok result
    /\ Z.of_nat (length result) = 3%Z
    /\ NoDup result
    /\ (forall x, In x result ->
        In x [u "AAPL"; u "MSFT"; u "TSLA"; u "NVDA"])
    /\ result
       = firstn (Z.to_nat 3)
           (set_order rt_reverse [u "AAPL"; u "MSFT"; u "TSLA"; u "NVDA"]).
Proof.
  apply C1_limit_enforced_in_set_order.
  - apply reverse_order_ok.
  - vm_compute. reflexivity.
  - lia.
  - vm_compute. reflexivity.
Defined.

(** C1 as stated fails.  With four candidates discovered in the order AAPL,
    MSFT, TSLA, NVDA and a set that iterates them in the opposite order, the
    three tickers returned are not the first three discovered.  And when the
    candidates are counted with their repetitions, three discoveries of the
    same ticker AA exceed the limit 2 while the result has one element. *)
Lemma C1_counterexample :
  (set_order_ok rt_reverse
   /\ found_adds rt_reverse (u "AAPL MSFT TSLA NVDA") 3
      = Ok [u "AAPL"; u "MSFT"; u "TSLA"; u "NVDA"]
   /\ resolve_tickers_from_text rt_reverse (u "AAPL MSFT TSLA NVDA") 3
      = Ok [u "NVDA"; u "TSLA"; u "MSFT"]
   /\ resolve_tickers_from_text rt_reverse (u "AAPL MSFT TSLA NVDA") 3
      <> Ok (firstn 3
               (first_discovered [u "AAPL"; u "MSFT"; u "TSLA"; u "NVDA"])))
  /\ (found_adds rt_insertion (u "aa aa aa") 2 = Ok [u "AA"; u "AA"; u "AA"]
      /\ resolve_tickers_from_text rt_insertion (u "aa aa aa") 2 = Ok [u "AA"]).
Proof.
  split.
  - split; [apply reverse_order_ok |].
    split; [vm_compute; reflexivity |].
    split; [vm_compute; reflexivity |].
    vm_compute. discriminate.
  - split; vm_compute; reflexivity.
Qed.

(** C8, as the code has it.  The result is a function of the text, the
    limit, the static table, the matcher's answer and the iteration order of
    the candidate set, and of nothing else: two calls with identical
    arguments that get the same matches and iterate the set in the same
    order (as two calls in one process do) return identical results. *)
Theorem C8_deterministic_within_a_process :
  forall (rt1 rt2 : runtime) (text : str) (limit : Z),
    extract rt1 (_normalize_company_text text) (keys _ALIAS_TO_TICKER) limit
    = extract rt2 (_normalize_company_text text) (keys _ALIAS_TO_TICKER) limit ->
    (forall adds,
        found_adds rt1 text limit = Ok adds ->
        set_order rt1 adds = set_order rt2 adds) ->
    resolve_tickers_from_text rt1 text limit
    = resolve_tickers_from_text rt2 text limit.
Proof.
  intros rt1 rt2 text limit Hex Hord.
  assert (Hadds : found_adds rt1 text limit = found_adds rt2 text limit).
  { unfold found_adds, fuzzy_adds. now rewrite Hex. }
  unfold resolve_tickers_from_text. rewrite <- Hadds.
  destruct (found_adds rt1 text limit) as [adds|]; simpl; [| reflexivity].
  now rewrite (Hord adds eq_refl).
Qed.

Lemma C8_witness :
  resolve_tickers_from_text rt_insertion (u "tesla") 3
  = resolve_tickers_from_text
      {| set_order := fun adds => rev (rev (fromkeys adds));
         extract := word_extract |} (u "tesla") 3.
Proof.
  apply C8_deterministic_within_a_process.
  - vm_compute. reflexivity.
  - intros adds _. simpl. unfold insertion_order.
    symmetry. apply rev_involutive.
Defined.

(** C8 as stated fails: the result depends on something that is not an
    argument.  The same text and limit, against the same table and with the
    same matcher, give different lists under two iteration orders of the
    candidate set. *)
Lemma C8_counterexample :
  set_order_ok rt_insertion /\ set_order_ok rt_reverse
  /\ extract rt_insertion = extract rt_reverse
  /\ resolve_tickers_from_text rt_insertion (u "AAPL MSFT TSLA NVDA") 3
     = Ok [u "AAPL"; u "MSFT"; u "TSLA"]
  /\ resolve_tickers_from_text rt_reverse (u "AAPL MSFT TSLA NVDA") 3
     = Ok [u "NVDA"; u "TSLA"; u "MSFT"]
  /\ resolve_tickers_from_text rt_insertion (u "AAPL MSFT TSLA NVDA") 3
     <> resolve_tickers_from_text rt_reverse (u "AAPL MSFT TSLA NVDA") 3.
Proof.
  split; [apply insertion_order_ok |].
  split; [apply reverse_order_ok |].
  split; [reflexivity |].
  split; [vm_compute; reflexivity |].
  split; [vm_compute; reflexivity |].
  vm_compute. discriminate.
Qed.

(** ** The three examples of the specification *)

Lemma for_each_getitem_const (d : list (str * str)) (names : list str) (v : str) :
  (forall name, In name names -> get d name = Some v) ->
  exists vs,
    for_each (getitem d) names = Ok vs /\ (forall x, In x vs -> x = v).
Proof.
  induction names as [|n names IH]; simpl; intros H.
  - exists []. split; [reflexivity | intros x []].
  - destruct IH as [vs [Hvs Hall]]; [intros name Hn; apply H; now right |].
    exists (v :: vs). unfold getitem at 1. rewrite (H n) by now left.
    simpl. rewrite Hvs. simpl. split; [reflexivity |].
    intros x [<-|Hx]; [reflexivity | now apply Hall].
Qed.

Lemma NoDup_3 (a b c : str) :
  eqb a b = false -> eqb a c = false -> eqb b c = false -> NoDup [a; b; c].
Proof.
  intros Hab Hac Hbc.
  assert (a <> b) by (intros E; apply eqb_eq in E; congruence).
  assert (a <> c) by (intros E; apply eqb_eq in E; congruence).
  assert (b <> c) by (intros E; apply eqb_eq in E; congruence).
  repeat constructor; simpl; intuition congruence.
Qed.

(** C4.  [resolve_tickers_from_text("ERIC-B", 3)] returns exactly
    [["ERIC-B.ST"]].  The pattern step and the exact step both find
    ERIC-B.ST; the result is that single ticker provided the matches of the
    fuzzy step for the query ["eric-b"] are aliases of ERIC-B.ST (the alias
    ["eric-b"] itself is the exact match). *)
Theorem C4_bare_eric_b :
  forall rt : runtime,
    set_order_ok rt ->
    (forall name,
        In name (extract rt (u "eric-b") (keys _ALIAS_TO_TICKER) 3) ->
        get _ALIAS_TO_TICKER name = Some (u "ERIC-B.ST")) ->
    resolve_tickers_from_text rt (u "ERIC-B") 3 = Ok [u "ERIC-B.ST"].
Proof.
  intros rt Hord Hfz.
  destruct (for_each_getitem_const _ALIAS_TO_TICKER _ _ Hfz) as [fz [Hfor Hall]].
  assert (Hadds : found_adds rt (u "ERIC-B") 3
                  = Ok ([u "ERIC-B.ST"] ++ fz ++ [u "ERIC-B.ST"])).
  { unfold found_adds, fuzzy_adds.
    replace (_normalize_company_text (u "ERIC-B")) with (u "eric-b")
      by (vm_compute; reflexivity).
    rewrite Hfor. simpl bind.
    replace (pattern_adds (u "eric-b")) with [u "ERIC-B.ST"]
      by (vm_compute; reflexivity).
    replace (exact_adds (u "eric-b")) with [u "ERIC-B.ST"]
      by (vm_compute; reflexivity).
    reflexivity. }
  rewrite (resolve_iteration rt _ _ _ Hord Hadds).
  set (adds := [u "ERIC-B.ST"] ++ fz ++ [u "ERIC-B.ST"]).
  assert (Hone : set_order rt adds = [u "ERIC-B.ST"]).
  { pose proof (Hord adds) as P.
    assert (Hin : forall y, In y adds -> y = u "ERIC-B.ST").
    { intros y Hy. unfold adds in Hy. simpl in Hy.
      destruct Hy as [<-|Hy]; [reflexivity |].
      apply in_app_or in Hy. destruct Hy as [Hy|[<-|[]]];
        [now apply Hall | reflexivity]. }
    apply NoDup_all_equal.
    - apply (Permutation_NoDup (Permutation_sym P)), fromkeys_NoDup.
    - apply (Permutation_in _ (Permutation_sym P)).
      apply fromkeys_In. now left.
    - intros y Hy. apply Hin. apply fromkeys_In.
      exact (Permutation_in _ P Hy). }
  rewrite Hone. reflexivity.
Qed.

Lemma C4_witness :
  resolve_tickers_from_text rt_reverse (u "ERIC-B") 3 = Ok [u "ERIC-B.ST"].
Proof.
  apply C4_bare_eric_b.
  - apply reverse_order_ok.
  - intros name H. vm_compute in H.
    destruct H as [<-|[]]. vm_compute. reflexivity.
Defined.

(** C2 fails on the code.  The pattern step admits the words PRIS, TESLA and
    IDAG of ["pris p(a-ring) tesla idag"] as tickers before the alias
    ["tesla"] contributes TSLA, so more than three candidates are found and
    the truncation keeps three of them in the iteration order of the set.
    Whatever the fuzzy matcher answers, when the set iterates in the order of
    discovery TSLA is discovered and yet the result is PRIS, TESLA, IDAG. *)
Theorem C2_tsla_lost_by_truncation :
  forall ex : str -> list str -> Z -> list str,
    (forall query choices limit name,
        In name (ex query choices limit) -> In name choices) ->
    let rt := {| set_order := insertion_order; extract := ex |} in
    let text := u "pris p" ++ [a_ring] ++ u " tesla idag" in
    (exists adds, found_adds rt text 3 = Ok adds /\ In (u "TSLA") adds)
    /\ resolve_tickers_from_text rt text 3
       = Ok [u "PRIS"; u "TESLA"; u "IDAG"]
    /\ ~ In (u "TSLA") [u "PRIS"; u "TESLA"; u "IDAG"].
Proof.
  intros ex Hex rt text.
  destruct (found_adds_total rt text 3 Hex) as [adds Hadds].
  pose proof (resolve_iteration rt text 3 adds (insertion_order_ok ex) Hadds)
    as Hres.
  destruct (found_adds_inv rt text 3 adds Hadds) as [fz [_ Heq]].
  replace (pattern_adds (_normalize_company_text text))
    with [u "PRIS"; u "TESLA"; u "IDAG"] in Heq by (vm_compute; reflexivity).
  replace (exact_adds (_normalize_company_text text))
    with [u "TSLA"] in Heq by (vm_compute; reflexivity).
  split; [| split].
  - exists adds. split; [assumption |]. rewrite Heq.
    apply in_or_app. right. apply in_or_app. right. now left.
  - rewrite Hres. simpl set_order. unfold insertion_order. rewrite Heq.
    destruct (fromkeys_prefix [u "PRIS"; u "TESLA"; u "IDAG"]
                (fz ++ [u "TSLA"])) as [tail ->].
    + apply NoDup_3; vm_compute; reflexivity.
    + reflexivity.
  - vm_compute. intuition discriminate.
Qed.

Lemma C2_witness :
  resolve_tickers_from_text rt_insertion
    (u "pris p" ++ [a_ring] ++ u " tesla idag") 3
  = Ok [u "PRIS"; u "TESLA"; u "IDAG"].
Proof.
  apply (C2_tsla_lost_by_truncation word_extract).
  intros query choices limit name H.
  exact (word_extract_ok insertion_order query choices limit name H).
Defined.

(** C3 fails on the code.  [_normalize_company_text] drops the ampersand, so
    ["vad kostar H&M och Ericsson"] becomes ["vad kostar h m och ericsson"]:
    the pattern step admits VAD, H, M and OCH, the exact step finds
    ERIC-B.ST, and neither ["h&m"] nor ["hm"] is a word of the text.
    Whatever the fuzzy matcher answers, when the set iterates in the order of
    discovery the result is VAD, H, M: neither HM-B.ST nor ERIC-B.ST. *)
Theorem C3_hm_and_ericsson_lost :
  forall ex : str -> list str -> Z -> list str,
    (forall query choices limit name,
        In name (ex query choices limit) -> In name choices) ->
    let rt := {| set_order := insertion_order; extract := ex |} in
    let text := u "vad kostar H&M och Ericsson" in
    _normalize_company_text text = u "vad kostar h m och ericsson"
    /\ resolve_tickers_from_text rt text 3 = Ok [u "VAD"; u "H"; u "M"]
    /\ ~ In (u "HM-B.ST") [u "VAD"; u "H"; u "M"]
    /\ ~ In (u "ERIC-B.ST") [u "VAD"; u "H"; u "M"].
Proof.
  intros ex Hex rt text.
  destruct (found_adds_total rt text 3 Hex) as [adds Hadds].
  pose proof (resolve_iteration rt text 3 adds (insertion_order_ok ex) Hadds)
    as Hres.
  destruct (found_adds_inv rt text 3 adds Hadds) as [fz [_ Heq]].
  replace (pattern_adds (_normalize_company_text text))
    with ([u "VAD"; u "H"; u "M"] ++ [u "OCH"]) in Heq
    by (vm_compute; reflexivity).
  split; [vm_compute; reflexivity |].
  split; [| split].
  - rewrite Hres. simpl set_order. unfold insertion_order. rewrite Heq.
    rewrite <- app_assoc.
    destruct (fromkeys_prefix [u "VAD"; u "H"; u "M"]
                ([u "OCH"] ++ fz ++ exact_adds (_normalize_company_text text)))
      as [tail ->].
    + apply NoDup_3; vm_compute; reflexivity.
    + reflexivity.
  - vm_compute. intuition discriminate.
  - vm_compute. intuition discriminate.
Qed.

Lemma C3_witness :
  resolve_tickers_from_text rt_insertion (u "vad kostar H&M och Ericsson") 3
  = Ok [u "VAD"; u "H"; u "M"].
Proof.
  apply (C3_hm_and_ericsson_lost word_extract).
  intros query choices limit name H.
  exact (word_extract_ok insertion_order query choices limit name H).
Defined.

(** For that text HM-B.ST can only come from the fuzzy step: under every
    iteration order, it is returned only if the matcher returned one of its
    aliases. *)
Lemma hm_only_from_fuzzy_step (rt : runtime) (result : list str) :
  resolve_tickers_from_text rt (u "vad kostar H&M och Ericsson") 3 = Ok result ->
  set_order_ok rt ->
  In (u "HM-B.ST") result ->
  exists name,
    In name (extract rt (u "vad kostar h m och ericsson")
               (keys _ALIAS_TO_TICKER) 3)
    /\ get _ALIAS_TO_TICKER name = Some (u "HM-B.ST").
Proof.
  intros Hres Hord Hin.
  destruct (found_adds rt (u "vad kostar H&M och Ericsson") 3) as [adds|e]
    eqn:Hadds.
  2:{ unfold resolve_tickers_from_text in Hres. rewrite Hadds in Hres.
      discriminate. }
  rewrite (resolve_iteration rt _ _ _ Hord Hadds) in Hres.
  injection Hres as <-.
  apply slice_to_incl in Hin.
  apply (Permutation_in _ (Hord adds)) in Hin. rewrite fromkeys_In in Hin.
  destruct (found_adds_inv _ _ _ _ Hadds) as [fz [Hfz ->]].
  replace (_normalize_company_text (u "vad kostar H&M och Ericsson"))
    with (u "vad kostar h m och ericsson") in * by (vm_compute; reflexivity).
  apply in_app_or in Hin. destruct Hin as [Hp|Hin].
  { exfalso. vm_compute in Hp. intuition discriminate. }
  apply in_app_or in Hin. destruct Hin as [Hf|He].
  - unfold fuzzy_adds in Hfz.
    exact (for_each_getitem_In _ _ _ _ Hfz Hf).
  - exfalso. vm_compute in He. intuition discriminate.
Qed.

(** ** Tokens: [findall], [join] and [split] *)

Lemma runs_from_all (p : char -> bool) (w cur rest : str) :
  forallb p w = true ->
  runs_from p cur (w ++ rest) = runs_from p (rev w ++ cur) rest.
Proof.
  revert cur. induction w as [|c w IH]; intros cur H; simpl in *.
  - reflexivity.
  - apply andb_true_iff in H. destruct H as [Hc Hw].
    rewrite Hc, IH by assumption. now rewrite <- app_assoc.
Qed.

Lemma runs_from_flush (p : char -> bool) (cur : str) :
  cur <> [] -> runs_from p cur [] = [rev cur].
Proof. destruct cur; [congruence | reflexivity]. Qed.

Lemma runs_from_stop (p : char -> bool) (cur : str) (c : char) (rest : str) :
  cur <> [] -> p c = false ->
  runs_from p cur (c :: rest) = rev cur :: runs_from p [] rest.
Proof. intros H Hc. simpl. rewrite Hc. destruct cur; [congruence | reflexivity]. Qed.

Lemma rev_not_nil (w : str) : w <> [] -> rev w ++ [] <> [].
Proof.
  intros H E. rewrite app_nil_r in E.
  apply (f_equal (@rev char)) in E. rewrite rev_involutive in E. auto.
Qed.

(** A run that is delimited on both sides is one of the runs. *)
Lemma runs_from_skip (p : char -> bool) (x : str) (rest : str) :
  In x (runs_from p [] rest) ->
  forall (pre : str) (c : char) (cur : str),
    p c = false -> In x (runs_from p cur (pre ++ c :: rest)).
Proof.
  intros Hx pre c. induction pre as [|d pre IH]; intros cur Hc; simpl.
  - rewrite Hc. destruct cur; [assumption | now right].
  - destruct (p d).
    + now apply IH.
    + destruct cur; [now apply IH | right; now apply IH].
Qed.

Lemma runs_from_here (p : char -> bool) (w post : str) :
  w <> [] -> forallb p w = true ->
  (post = [] \/ exists c post', post = c :: post' /\ p c = false) ->
  In w (runs_from p [] (w ++ post)).
Proof.
  intros Hne Hall Hpost. rewrite runs_from_all by assumption.
  pose proof (rev_not_nil w Hne) as Hcur.
  assert (Hrev : rev (rev w ++ []) = w)
    by (rewrite app_nil_r; apply rev_involutive).
  destruct Hpost as [->|[c [post' [-> Hc]]]].
  - rewrite runs_from_flush by assumption. rewrite Hrev. now left.
  - rewrite runs_from_stop by assumption. rewrite Hrev. now left.
Qed.

Lemma runs_intro (p : char -> bool) (pre w post : str) :
  w <> [] -> forallb p w = true ->
  (pre = [] \/ exists pre' c, pre = pre' ++ [c] /\ p c = false) ->
  (post = [] \/ exists c post', post = c :: post' /\ p c = false) ->
  In w (runs p (pre ++ w ++ post)).
Proof.
  intros Hne Hall Hpre Hpost. unfold runs.
  pose proof (runs_from_here p w post Hne Hall Hpost) as Hhere.
  destruct Hpre as [->|[pre' [c [-> Hc]]]].
  - exact Hhere.
  - rewrite <- app_assoc. simpl. now apply runs_from_skip.
Qed.

(** Conversely, every run is delimited on both sides. *)
Lemma runs_from_inv (p : char -> bool) (w : str) (s cur : str) :
  In w (runs_from p cur s) ->
  (exists pre post,
      s = pre ++ w ++ post
      /\ ((pre = [] /\ cur = [])
          \/ exists pre' c, pre = pre' ++ [c] /\ p c = false)
      /\ (post = [] \/ exists c post', post = c :: post' /\ p c = false))
  \/ (exists w' post,
         cur <> [] /\ w = rev cur ++ w' /\ s = w' ++ post
         /\ (post = [] \/ exists c post', post = c :: post' /\ p c = false)).
Proof.
  revert cur. induction s as [|c rest IH]; intros cur Hin.
  - simpl in Hin. destruct cur as [|a cur]; [destruct Hin |].
    destruct Hin as [<-|[]]. right. exists [], [].
    repeat split; [discriminate | now rewrite app_nil_r | now left].
  - simpl in Hin. destruct (p c) eqn:Hc.
    + apply IH in Hin.
      destruct Hin as [[pre [post [-> [Hpre Hpost]]]]|[w' [post [_ [-> [-> Hpost]]]]]].
      * left. exists (c :: pre), post. split; [reflexivity |].
        split; [| assumption]. right.
        destruct Hpre as [[_ E]|[pre' [c0 [-> Hc0]]]]; [discriminate |].
        exists (c :: pre'), c0. now split.
      * destruct cur as [|a cur].
        -- left. exists [], post. simpl. repeat split; auto.
        -- right. exists (c :: w'), post. simpl.
           repeat split; [discriminate | | assumption].
           now rewrite <- !app_assoc.
    + assert (Hrest : In w (runs_from p [] rest) ->
                      exists pre post,
                        c :: rest = pre ++ w ++ post
                        /\ ((pre = [] /\ cur = [])
                            \/ exists pre' c0, pre = pre' ++ [c0] /\ p c0 = false)
                        /\ (post = []
                            \/ exists c0 post', post = c0 :: post' /\ p c0 = false)).
      { intros H. apply IH in H.
        destruct H as [[pre [post [-> [Hpre Hpost]]]]|[w' [post [N _]]]];
          [| congruence].
        exists (c :: pre), post. split; [reflexivity |].
        split; [| assumption]. right.
        destruct Hpre as [[-> _]|[pre' [c0 [-> Hc0]]]].
        - exists [], c. now split.
        - exists (c :: pre'), c0. now split. }
      destruct cur as [|a cur].
      * left. now apply Hrest.
      * destruct Hin as [<-|Hin].
        -- right. exists [], (c :: rest).
           repeat split; [discriminate | now rewrite app_nil_r |].
           right. exists c, rest. now split.
        -- left. now apply Hrest.
Qed.

Lemma runs_inv (p : char -> bool) (w s : str) :
  In w (runs p s) ->
  exists pre post,
    s = pre ++ w ++ post
    /\ (pre = [] \/ exists pre' c, pre = pre' ++ [c] /\ p c = false)
    /\ (post = [] \/ exists c post', post = c :: post' /\ p c = false).
Proof.
  intros H. apply runs_from_inv in H.
  destruct H as [[pre [post [E [Hpre Hpost]]]]|[w' [post [N _]]]];
    [| congruence].
  exists pre, post. repeat split; try assumption.
  destruct Hpre as [[-> _]|H]; [now left | now right].
Qed.

Lemma runs_from_sound (p : char -> bool) (w : str) (s cur : str) :
  forallb p cur = true ->
  In w (runs_from p cur s) -> w <> [] /\ forallb p w = true.
Proof.
  revert cur. induction s as [|c rest IH]; intros cur Hcur Hin; simpl in Hin.
  - destruct cur as [|a cur]; [destruct Hin |].
    destruct Hin as [<-|[]]. split.
    + intros E. apply (f_equal (@length char)) in E.
      rewrite length_rev in E. discriminate.
    + rewrite forallb_forall in *. intros x Hx. apply Hcur.
      now apply in_rev.
  - destruct (p c) eqn:Hc.
    + apply (IH (c :: cur)); [simpl; now rewrite Hc | assumption].
    + destruct cur as [|a cur]; [now apply (IH []) |].
      destruct Hin as [<-|Hin]; [| now apply (IH [])].
      split.
      * intros E. apply (f_equal (@length char)) in E.
        rewrite length_rev in E. discriminate.
      * rewrite forallb_forall in *. intros x Hx. apply Hcur.
        now apply in_rev.
Qed.

Lemma split_join (ws : list str) :
  (forall w, In w ws ->
             w <> [] /\ forallb (fun c => negb (is_space c)) w = true) ->
  split (join (u " ") ws) = ws.
Proof.
  unfold split, runs. induction ws as [|w ws IH]; intros H.
  - reflexivity.
  - destruct (H w (or_introl eq_refl)) as [Hne Hall].
    pose proof (rev_not_nil w Hne) as Hcur.
    assert (Hrev : rev (rev w ++ []) = w)
      by (rewrite app_nil_r; apply rev_involutive).
    destruct ws as [|w2 ws].
    + simpl join. rewrite <- (app_nil_r w) at 1.
      rewrite runs_from_all by assumption.
      rewrite runs_from_flush by assumption. now rewrite Hrev.
    + change (join (u " ") (w :: w2 :: ws))
        with (w ++ 32%N :: join (u " ") (w2 :: ws)).
      rewrite runs_from_all by assumption.
      rewrite runs_from_stop by (assumption || reflexivity).
      rewrite Hrev. f_equal. apply IH.
      intros x Hx. apply H. now right.
Qed.

(** ** Characters of tokens *)

Lemma between_spec (lo hi c : N) :
  between lo hi c = true <-> (lo <= c <= hi)%N.
Proof.
  unfold between. rewrite andb_true_iff, !N.leb_le. tauto.
Qed.

Lemma is_space_range (c : char) :
  is_space c = true -> (c <= 32 \/ c = 133 \/ c = 160 \/ 5760 <= c)%N.
Proof.
  unfold is_space. rewrite !orb_true_iff, !between_spec, !N.eqb_eq. lia.
Qed.

Lemma word_char_range (c : char) :
  word_char c = true -> (45 <= c <= 246 /\ c <> 133 /\ c <> 160)%N.
Proof.
  unfold word_char. rewrite !orb_true_iff, !between_spec, !N.eqb_eq. lia.
Qed.

Lemma ascii_letter_range (c : char) :
  ascii_letter c = true -> (65 <= c <= 90 \/ 97 <= c <= 122)%N.
Proof.
  unfold ascii_letter. rewrite orb_true_iff, !between_spec. tauto.
Qed.

Lemma space_not_word (c : char) :
  is_space c = true -> word_char (lower_char c) = false.
Proof.
  intros H. apply is_space_range in H.
  unfold lower_char, between. split_tests; simpl;
    unfold word_char, between; split_tests; reflexivity.
Qed.

Lemma word_not_space (c : char) :
  word_char c = true -> is_space c = false.
Proof.
  intros H. apply word_char_range in H.
  unfold is_space, between. split_tests; reflexivity.
Qed.

Lemma letter_lower_word (c : char) :
  ascii_letter c = true -> word_char (lower_char c) = true.
Proof.
  intros H. apply ascii_letter_range in H.
  unfold lower_char, between. split_tests; simpl;
    unfold word_char, between; split_tests; reflexivity.
Qed.

Lemma letter_upper (c : char) :
  ascii_letter c = true ->
  exists d,
    upper_char c = [d] /\ upper_char (lower_char c) = [d]
    /\ between 65 90 d = true.
Proof.
  intros H. apply ascii_letter_range in H.
  destruct (N.leb_spec c 90) as [Hle|Hgt].
  - exists c. assert (Hc : (65 <= c <= 90)%N) by lia.
    repeat split.
    + unfold upper_char, between. split_tests; reflexivity.
    + unfold lower_char, between. split_tests; simpl.
      unfold upper_char, between. split_tests; simpl. f_equal. lia.
    + apply between_spec. lia.
  - exists (c - 32)%N. assert (Hc : (97 <= c <= 122)%N) by lia.
    repeat split.
    + unfold upper_char, between. split_tests; reflexivity.
    + unfold lower_char, between. split_tests; simpl.
      unfold upper_char, between. split_tests; reflexivity.
    + apply between_spec. lia.
Qed.

Lemma letters_upper (tok : str) :
  forallb ascii_letter tok = true ->
  upper (lower tok) = upper tok
  /\ forallb (between 65 90) (upper tok) = true
  /\ length (upper tok) = length tok.
Proof.
  induction tok as [|c tok IH]; simpl; intros H.
  - auto.
  - apply andb_true_iff in H. destruct H as [Hc Htok].
    destruct (letter_upper c Hc) as [d [E1 [E2 Hd]]].
    destruct (IH Htok) as [I1 [I2 I3]].
    change (upper (lower_char c :: lower tok))
      with (upper_char (lower_char c) ++ upper (lower tok)).
    change (upper (c :: tok)) with (upper_char c ++ upper tok).
    rewrite E1, E2, I1. simpl. rewrite Hd, I2, I3. auto.
Qed.

Lemma A_Z_not_punctuation (c : char) :
  between 65 90 c = true -> (45 =? c)%N = false /\ (46 =? c)%N = false.
Proof.
  rewrite between_spec. intros H. split; apply N.eqb_neq; lia.
Qed.

(** One to five capital letters form a ticker. *)
Lemma ticker_rx_letters (w : str) :
  (1 <= length w <= 5)%nat ->
  forallb (between 65 90) w = true ->
  Re.fullmatch ticker_rx w = true.
Proof.
  intros Hlen Hall.
  assert (Hall' : Forall (fun c => between 65 90 c = true) w)
    by (apply Forall_forall; now apply forallb_forall).
  destruct w as [|c1 [|c2 [|c3 [|c4 [|c5 [|c6 w]]]]]]; simpl in Hlen; try lia;
    repeat match goal with
           | H : Forall _ (_ :: _) |- _ => inversion H; subst; clear H
           end;
    repeat match goal with
           | H : between 65 90 ?c = true |- _ =>
               destruct (A_Z_not_punctuation c H); revert H
           end;
    intros; unfold ticker_rx, Re.Rep, Re.Lit, Re.Opt, A_Z; simpl;
    repeat match goal with
           | H : _ = _ |- _ => rewrite H; simpl
           end;
    reflexivity.
Qed.

(** Every word [_WORDS_RX_findall] returns is a match of [_WORDS_RX]. *)
Lemma plus_class_matches (p : char -> bool) (w : str) :
  w <> [] -> forallb p w = true -> Re.matches (Re.Plus (Re.Class p)) w.
Proof.
  intros Hne Hall. destruct w as [|c w]; [congruence |].
  simpl in Hall. apply andb_true_iff in Hall. destruct Hall as [Hc Hw].
  apply (Re.MCat (Re.Class p) (Re.Star (Re.Class p)) [c] w).
  - now constructor.
  - clear Hne Hc. induction w as [|d w IH]; [constructor |].
    simpl in Hw. apply andb_true_iff in Hw. destruct Hw as [Hd Hw].
    apply (Re.MStarApp (Re.Class p) [d] w); [now constructor | now apply IH].
Qed.

Lemma _WORDS_RX_findall_matches (s w : str) :
  In w (_WORDS_RX_findall s) -> Re.fullmatch _WORDS_RX w = true.
Proof.
  intros H. apply fullmatch_matches.
  apply runs_from_sound in H; [| reflexivity].
  destruct H as [Hne Hall]. now apply plus_class_matches.
Qed.

(** The tokens of the normalized text are the words [_WORDS_RX] finds. *)
Lemma tokens_of_normalized (text : str) :
  split (_normalize_company_text text) = _WORDS_RX_findall (lower text).
Proof.
  unfold _normalize_company_text. apply split_join.
  intros w Hw. unfold _WORDS_RX_findall, runs in Hw.
  apply runs_from_sound in Hw; [| reflexivity].
  destruct Hw as [Hne Hall]. split; [assumption |].
  rewrite forallb_forall in *. intros c Hc.
  now rewrite (word_not_space c (Hall c Hc)).
Qed.

Lemma lower_app (a b : str) : lower (a ++ b) = lower a ++ lower b.
Proof. apply map_app. Qed.

(** A whitespace-delimited token made of ASCII letters survives the
    normalization, lower-cased. *)
Lemma letter_token_kept (text tok : str) :
  In tok (split text) ->
  tok <> [] ->
  forallb ascii_letter tok = true ->
  In (lower tok) (split (_normalize_company_text text)).
Proof.
  intros Hin Hne Hall. rewrite tokens_of_normalized.
  apply runs_inv in Hin.
  destruct Hin as [pre [post [-> [Hpre Hpost]]]].
  rewrite !lower_app. apply runs_intro.
  - destruct tok; [congruence | discriminate].
  - rewrite forallb_forall in *. intros c Hc.
    apply in_map_iff in Hc. destruct Hc as [c0 [<- Hc0]].
    apply letter_lower_word. now apply Hall.
  - destruct Hpre as [->|[pre' [c [-> Hc]]]]; [now left | right].
    exists (lower pre'), (lower_char c). split.
    + now rewrite lower_app.
    + apply space_not_word. now apply negb_false_iff.
  - destruct Hpost as [->|[c [post' [-> Hc]]]]; [now left | right].
    exists (lower_char c), (lower post'). split; [reflexivity |].
    apply space_not_word. now apply negb_false_iff.
Qed.

Lemma short_letter_token_spec (tok : str) :
  short_letter_token tok = true ->
  (1 <= length tok <= 5)%nat /\ forallb ascii_letter tok = true.
Proof.
  unfold short_letter_token. rewrite !andb_true_iff, !Nat.leb_le. tauto.
Qed.

Lemma _maybe_append_st_other (t : str) :
  ~ In (upper t) _STOCKHOLM_SUFFIX_CANDIDATES -> _maybe_append_st t = upper t.
Proof.
  intros H. unfold _maybe_append_st.
  now rewrite (proj2 (mem_not_In _ _) H).
Qed.

(** C5, as the code has it.  When the text contains a whitespace-delimited
    token of one to five ASCII letters, the pattern step adds the
    upper-cased token after the suffix normalizer: the upper-cased token
    itself unless it is a bare Stockholm symbol, which gets ".ST".  That
    candidate is in the returned list whenever the number of distinct
    candidates does not exceed the limit. *)
Theorem C5_letter_token_is_a_candidate :
  forall (rt : runtime) (text : str) (limit : Z) (tok : str) (adds : list str),
    set_order_ok rt ->
    found_adds rt text limit = Ok adds ->
    In tok (split text) ->
    short_letter_token tok = true ->
    In (_maybe_append_st (upper tok)) adds
    /\ (~ In (upper tok) _STOCKHOLM_SUFFIX_CANDIDATES ->
        _maybe_append_st (upper tok) = upper tok)
    /\ ((Z.of_nat (length (first_discovered adds)) <= limit)%Z ->
        exists result,
          resolve_tickers_from_text rt text limit = Ok result
          /\ In (_maybe_append_st (upper tok)) result).
Proof.
  intros rt text limit tok adds Hord Hadds Htok Hshort.
  apply short_letter_token_spec in Hshort. destruct Hshort as [Hlen Hall].
  destruct (letters_upper tok Hall) as [Hup [Hcaps Hlen']].
  assert (Hcand : In (_maybe_append_st (upper tok)) adds).
  { destruct (found_adds_inv rt text limit adds Hadds) as [fz [_ ->]].
    apply in_or_app. left. rewrite <- Hup. apply pattern_adds_intro.
    - apply letter_token_kept; try assumption.
      destruct tok; [simpl in Hlen; lia | discriminate].
    - rewrite Hup. apply ticker_rx_letters; [lia | assumption]. }
  split; [assumption |]. split.
  - intros Hnot. rewrite _maybe_append_st_other; rewrite upper_idem; auto.
  - intros Hfew. exists (slice_to (set_order rt adds) limit).
    split; [now apply resolve_iteration |].
    pose proof (Hord adds) as P. unfold first_discovered in Hfew.
    rewrite slice_to_all by (rewrite (Permutation_length P); assumption).
    apply (Permutation_in _ (Permutation_sym P)). now apply fromkeys_In.
Qed.

Lemma C5_witness :
  In (_maybe_append_st (upper (u "AAPL"))) [u "AAPL"; u "SAND.ST"]
  /\ (~ In (upper (u "AAPL")) _STOCKHOLM_SUFFIX_CANDIDATES ->
      _maybe_append_st (upper (u "AAPL")) = upper (u "AAPL"))
  /\ ((Z.of_nat (length (first_discovered [u "AAPL"; u "SAND.ST"]))
       <= default_limit)%Z ->
      exists result,
        resolve_tickers_from_text rt_reverse (u "AAPL sand") default_limit
        = Ok result
        /\ In (_maybe_append_st (upper (u "AAPL"))) result).
Proof.
  apply C5_letter_token_is_a_candidate.
  - apply reverse_order_ok.
  - vm_compute. reflexivity.
  - vm_compute. now left.
  - vm_compute. reflexivity.
Defined.

(** C5 as stated fails in two ways.  The token ["sand"] upper-cases to the
    well-formed ticker SAND, and the result holds SAND.ST instead; of the
    four one-letter tokens of ["a b c d"] only three are returned with the
    default limit. *)
Lemma C5_counterexample :
  (In (u "sand") (split (u "sand"))
   /\ Re.fullmatch (Re.Rep 1 5 A_Z) (upper (u "sand")) = true
   /\ resolve_tickers_from_text rt_insertion (u "sand") default_limit
      = Ok [u "SAND.ST"]
   /\ ~ In (upper (u "sand")) [u "SAND.ST"])
  /\ (In (u "d") (split (u "a b c d"))
      /\ Re.fullmatch (Re.Rep 1 5 A_Z) (upper (u "d")) = true
      /\ resolve_tickers_from_text rt_insertion (u "a b c d") default_limit
         = Ok [u "A"; u "B"; u "C"]
      /\ ~ In (upper (u "d")) [u "A"; u "B"; u "C"]).
Proof.
  split.
  - split; [vm_compute; now left |].
    split; [vm_compute; reflexivity |].
    split; [vm_compute; reflexivity |].
    vm_compute. intuition discriminate.
  - split; [vm_compute; tauto |].
    split; [vm_compute; reflexivity |].
    split; [vm_compute; reflexivity |].
    vm_compute. intuition discriminate.
Qed.

(** Under every iteration order and every matcher, one of the four tokens of
    ["a b c d"] is missing from a result of at most three tickers. *)
Lemma four_tokens_one_lost (rt : runtime) (result : list str) :
  resolve_tickers_from_text rt (u "a b c d") default_limit = Ok result ->
  exists tok,
    In tok (split (u "a b c d")) /\ ~ In (upper tok) result.
Proof.
  intros H.
  assert (Hlen : (length result <= 3)%nat).
  { unfold resolve_tickers_from_text in H.
    destruct (found_adds rt (u "a b c d") default_limit); simpl in H;
      [| discriminate].
    injection H as <-. apply firstn_le_length. }
  assert (Hdec : forall x, {In x result} + {~ In x result})
    by (intros x; apply in_dec, (list_eq_dec N.eq_dec)).
  destruct (Hdec (u "A")) as [HA|HA];
    [| exists (u "a"); split; [vm_compute; tauto | exact HA]].
  destruct (Hdec (u "B")) as [HB|HB];
    [| exists (u "b"); split; [vm_compute; tauto | exact HB]].
  destruct (Hdec (u "C")) as [HC|HC];
    [| exists (u "c"); split; [vm_compute; tauto | exact HC]].
  destruct (Hdec (u "D")) as [HD|HD];
    [| exists (u "d"); split; [vm_compute; tauto | exact HD]].
  exfalso.
  assert (Hnd : NoDup [u "A"; u "B"; u "C"; u "D"]).
  { repeat constructor; vm_compute; intuition discriminate. }
  assert (Hincl : incl [u "A"; u "B"; u "C"; u "D"] result).
  { intros x [<-|[<-|[<-|[<-|[]]]]]; assumption. }
  pose proof (NoDup_incl_length Hnd Hincl) as L. simpl in L. lia.
Qed.

(** * Further properties of the resolver *)

(** ** The normalized text *)

Lemma runs_chars (p : char -> bool) (w s : str) (c : char) :
  In w (runs p s) -> In c w -> In c s /\ p c = true.
Proof.
  intros Hw Hc. split.
  - apply runs_inv in Hw. destruct Hw as [pre [post [-> _]]].
    apply in_or_app. right. apply in_or_app. now left.
  - unfold runs in Hw. apply runs_from_sound in Hw; [| reflexivity].
    destruct Hw as [_ Hall]. rewrite forallb_forall in Hall. now apply Hall.
Qed.

Lemma join_chars (sep : str) (ws : list str) (c : char) :
  In c (join sep ws) -> In c sep \/ exists w, In w ws /\ In c w.
Proof.
  induction ws as [|w ws IH]; simpl; [intros [] |].
  destruct ws as [|w2 ws].
  - intros H. right. exists w. auto.
  - intros H. apply in_app_or in H. destruct H as [H|H].
    + right. exists w. auto.
    + apply in_app_or in H. destruct H as [H|H]; [now left |].
      destruct (IH H) as [Hs|[w' [Hw' Hc]]]; [now left |].
      right. exists w'. split; [now right | assumption].
Qed.

Lemma lower_char_not_capital (c : char) :
  (~ (65 <= lower_char c <= 90) /\ lower_char c <> 196
   /\ lower_char c <> 197 /\ lower_char c <> 214)%N.
Proof.
  unfold lower_char, between. split_tests; simpl; lia.
Qed.

Lemma lower_word_normalized (c : char) :
  word_char (lower_char c) = true -> normalized_char (lower_char c) = true.
Proof.
  pose proof (lower_char_not_capital c) as Hlow.
  unfold word_char, normalized_char.
  rewrite !orb_true_iff, !between_spec, !N.eqb_eq. lia.
Qed.

Lemma normalized_lower (c : char) :
  normalized_char c = true -> lower_char c = c.
Proof.
  unfold normalized_char. rewrite !orb_true_iff, between_spec, !N.eqb_eq.
  intros H. unfold lower_char, between. split_tests; reflexivity.
Qed.

Lemma normalized_chars (text : str) (c : char) :
  In c (_normalize_company_text text) -> normalized_char c = true.
Proof.
  intros H. unfold _normalize_company_text in H.
  apply join_chars in H. destruct H as [H|[w [Hw Hc]]].
  - destruct H as [<-|[]]. reflexivity.
  - destruct (runs_chars word_char w (lower text) c Hw Hc) as [Hin Hword].
    apply in_map_iff in Hin. destruct Hin as [c0 [<- _]].
    now apply lower_word_normalized.
Qed.

Lemma runs_join (q : char -> bool) (ws : list str) :
  q 32%N = false ->
  (forall w, In w ws -> w <> [] /\ forallb q w = true) ->
  runs q (join (u " ") ws) = ws.
Proof.
  intros Hsp. unfold runs. induction ws as [|w ws IH]; intros H.
  - reflexivity.
  - destruct (H w (or_introl eq_refl)) as [Hne Hall].
    pose proof (rev_not_nil w Hne) as Hcur.
    assert (Hrev : rev (rev w ++ []) = w)
      by (rewrite app_nil_r; apply rev_involutive).
    destruct ws as [|w2 ws].
    + simpl join. rewrite <- (app_nil_r w) at 1.
      rewrite runs_from_all by assumption.
      rewrite runs_from_flush by assumption. now rewrite Hrev.
    + change (join (u " ") (w :: w2 :: ws))
        with (w ++ 32%N :: join (u " ") (w2 :: ws)).
      rewrite runs_from_all by assumption.
      rewrite runs_from_stop by assumption.
      rewrite Hrev. f_equal. apply IH.
      intros x Hx. apply H. now right.
Qed.

Lemma findall_words_sound (s w : str) :
  In w (_WORDS_RX_findall s) -> w <> [] /\ forallb word_char w = true.
Proof.
  intros H. unfold _WORDS_RX_findall, runs in H.
  now apply runs_from_sound in H.
Qed.

(** X1.  The normalized text is made of the small letters a-z, the three
    small Nordic letters, hyphens, periods and spaces only, and its words
    are separated by exactly one space, with no space at either end:
    joining its tokens with one space gives it back. *)
Theorem X1_normalized_text_shape :
  forall text : str,
    forallb normalized_char (_normalize_company_text text) = true
    /\ join (u " ") (split (_normalize_company_text text))
       = _normalize_company_text text.
Proof.
  intros text. split.
  - apply forallb_forall. intros c Hc. exact (normalized_chars text c Hc).
  - rewrite tokens_of_normalized. reflexivity.
Qed.

(** X2.  Normalizing is idempotent: a normalized text is its own normal
    form. *)
Theorem X2_normalize_idempotent :
  forall text : str,
    _normalize_company_text (_normalize_company_text text)
    = _normalize_company_text text.
Proof.
  intros text.
  assert (Hlow : lower (_normalize_company_text text)
                 = _normalize_company_text text).
  { unfold lower. rewrite <- (map_id (_normalize_company_text text)) at 2.
    apply map_ext_in. intros c Hc.
    apply normalized_lower. exact (normalized_chars text c Hc). }
  unfold _normalize_company_text at 1. rewrite Hlow.
  unfold _normalize_company_text. unfold _WORDS_RX_findall at 1.
  rewrite runs_join; [reflexivity | reflexivity |].
  intros w Hw. now apply findall_words_sound in Hw.
Qed.

(** ** The exact alias step *)

Lemma get_Some_In_keys (d : list (str * str)) (k v : str) :
  get d k = Some v -> In k (keys d).
Proof.
  induction d as [|[k' v'] d IH]; simpl; [discriminate |].
  destruct (eqb k k') eqn:E.
  - intros _. left. apply eqb_eq in E. now subst.
  - intros H. right. now apply IH.
Qed.

Lemma exact_adds_intro (t w v : str) :
  In w (split t) -> get _ALIAS_TO_TICKER w = Some v -> In v (exact_adds t).
Proof.
  intros Hw Hg. unfold exact_adds. apply in_flat_map. exists w.
  split; [assumption |].
  rewrite (proj2 (mem_In _ _) (get_Some_In_keys _ _ _ Hg)), Hg. now left.
Qed.

(** X3.  The exact alias step can never use the alias keys ["h&m"] and
    ["atlas copco"]: a word of the normalized text holds neither an
    ampersand nor a space, so every ticker the step adds comes from another
    key of the table. *)
Theorem X3_exact_step_unreachable_keys :
  forall (text v : str),
    In v (exact_adds (_normalize_company_text text)) ->
    exists k,
      In k (split (_normalize_company_text text))
      /\ get _ALIAS_TO_TICKER k = Some v
      /\ forallb word_char k = true
      /\ k <> u "h&m" /\ k <> u "atlas copco".
Proof.
  intros text v H. apply exact_adds_In in H. destruct H as [k [Hk Hg]].
  exists k. split; [assumption |]. split; [assumption |].
  assert (Hall : forallb word_char k = true).
  { rewrite tokens_of_normalized in Hk. now apply findall_words_sound in Hk. }
  split; [assumption |].
  split; intros E; rewrite E in Hall; vm_compute in Hall; discriminate.
Qed.

Lemma X3_witness :
  exists k,
    In k (split (_normalize_company_text (u "H&M hm")))
    /\ get _ALIAS_TO_TICKER k = Some (u "HM-B.ST")
    /\ forallb word_char k = true
    /\ k <> u "h&m" /\ k <> u "atlas copco".
Proof.
  apply X3_exact_step_unreachable_keys. vm_compute. now left.
Defined.

(** ** The shape of the returned tickers *)

Lemma matches_alphabet (r : Re.regex) (s : str) :
  Re.matches r s -> forallb (alphabet r) s = true.
Proof.
  intros H. induction H; simpl.
  - reflexivity.
  - now rewrite H.
  - rewrite forallb_app. apply andb_true_iff. split.
    + rewrite forallb_forall in *. intros c Hc.
      now rewrite (IHmatches1 c Hc).
    + rewrite forallb_forall in *. intros c Hc.
      rewrite (IHmatches2 c Hc). apply orb_true_r.
  - rewrite forallb_forall in *. intros c Hc. now rewrite (IHmatches c Hc).
  - rewrite forallb_forall in *. intros c Hc.
    rewrite (IHmatches c Hc). apply orb_true_r.
  - reflexivity.
  - rewrite forallb_app. apply andb_true_iff. split; assumption.
Qed.

Lemma ticker_alphabet (c : char) :
  alphabet ticker_rx c = true -> (65 <= c <= 90 \/ c = 45 \/ c = 46)%N.
Proof.
  cbv [alphabet ticker_rx Re.Rep Re.Opt Re.Lit A_Z Re.times Re.upto Nat.sub].
  rewrite !orb_true_iff, !between_spec, !N.eqb_eq.
  intuition (try discriminate; try lia).
Qed.

Lemma ticker_upper (s : str) :
  Re.fullmatch ticker_rx s = true -> upper s = s.
Proof.
  intros H. apply fullmatch_matches, matches_alphabet in H.
  induction s as [|c s IH]; [reflexivity |].
  simpl in H. apply andb_true_iff in H. destruct H as [Hc Hs].
  change (upper (c :: s)) with (upper_char c ++ upper s).
  rewrite (IH Hs). apply ticker_alphabet in Hc.
  unfold upper_char, between. split_tests; reflexivity.
Qed.

Lemma stockholm_with_suffix :
  Forall (fun t => Re.fullmatch ticker_rx (t ++ _ST_SUFFIX) = true)
         _STOCKHOLM_SUFFIX_CANDIDATES.
Proof. repeat constructor. Qed.

Lemma alias_tickers_shape :
  Forall (fun v => Re.fullmatch ticker_rx v = true)
         (map snd _ALIAS_TO_TICKER).
Proof. repeat constructor. Qed.

Lemma _maybe_append_st_shape (up : str) :
  Re.fullmatch ticker_rx up = true ->
  Re.fullmatch ticker_rx (_maybe_append_st up) = true.
Proof.
  intros H. unfold _maybe_append_st. rewrite (ticker_upper up H).
  destruct (mem up _STOCKHOLM_SUFFIX_CANDIDATES) eqn:M; simpl.
  - apply mem_In in M.
    destruct (endswith up (u ".ST")); simpl; [assumption |].
    exact (proj1 (Forall_forall _ _) stockholm_with_suffix up M).
  - assumption.
Qed.

Lemma found_adds_shape (rt : runtime) (text : str) (limit : Z)
      (adds : list str) (x : str) :
  found_adds rt text limit = Ok adds -> In x adds ->
  Re.fullmatch ticker_rx x = true.
Proof.
  intros H Hx. apply found_adds_inv in H. destruct H as [fz [Hfz ->]].
  apply in_app_or in Hx. destruct Hx as [Hx|Hx].
  - apply pattern_adds_In in Hx. destruct Hx as [token [_ [Hm ->]]].
    now apply _maybe_append_st_shape.
  - assert (Hv : In x (map snd _ALIAS_TO_TICKER)).
    { apply in_app_or in Hx. destruct Hx as [Hx|Hx].
      - destruct (for_each_getitem_In _ _ _ _ Hfz Hx) as [name [_ Hg]].
        exact (get_In_values _ _ _ Hg).
      - apply exact_adds_In in Hx. destruct Hx as [w [_ Hg]].
        exact (get_In_values _ _ _ Hg). }
    exact (proj1 (Forall_forall _ _) alias_tickers_shape x Hv).
Qed.

(** X4.  Every ticker the resolver returns has the shape of a ticker, one to
    five capital letters with an optional share class [-X] and an optional
    market suffix [.YY] of two to four letters, and is left unchanged by
    upper-casing. *)
Theorem X4_returned_tickers_have_ticker_shape :
  forall (rt : runtime) (text : str) (limit : Z) (result : list str),
    set_order_ok rt ->
    resolve_tickers_from_text rt text limit = Ok result ->
    forall x, In x result ->
      Re.fullmatch ticker_rx x = true /\ upper x = x.
Proof.
  intros rt text limit result Hord Hres x Hx.
  destruct (found_adds rt text limit) as [adds|e] eqn:Hadds.
  2:{ unfold resolve_tickers_from_text in Hres. rewrite Hadds in Hres.
      discriminate. }
  rewrite (resolve_iteration rt _ _ _ Hord Hadds) in Hres.
  injection Hres as <-. apply slice_to_incl in Hx.
  apply (Permutation_in _ (Hord adds)) in Hx. rewrite fromkeys_In in Hx.
  pose proof (found_adds_shape rt text limit adds x Hadds Hx) as Hshape.
  split; [assumption | now apply ticker_upper].
Qed.

Lemma X4_witness :
  resolve_tickers_from_text rt_reverse (u "volvo eric-b x.yz") 3
  = Ok [u "VOLV-B.ST"; u "X.YZ"; u "ERIC-B.ST"]
  /\ Re.fullmatch ticker_rx (u "ERIC-B.ST") = true
  /\ upper (u "ERIC-B.ST") = u "ERIC-B.ST".
Proof.
  assert (H : resolve_tickers_from_text rt_reverse (u "volvo eric-b x.yz") 3
              = Ok [u "VOLV-B.ST"; u "X.YZ"; u "ERIC-B.ST"])
    by (vm_compute; reflexivity).
  split; [exact H |].
  apply (X4_returned_tickers_have_ticker_shape rt_reverse _ 3 _
           (reverse_order_ok word_extract) H).
  right. right. now left.
Defined.

(** ** Size of the result *)

(** X5.  For a limit that is not negative the result never repeats a
    ticker, holds discovered candidates only, and with [n] distinct
    candidates has exactly [min limit n] elements. *)
Theorem X5_result_size :
  forall (rt : runtime) (text : str) (limit : Z) (adds : list str),
    set_order_ok rt ->
    (0 <= limit)%Z ->
    found_adds rt text limit = Ok adds ->
    exists result,
      resolve_tickers_from_text rt text limit = Ok result
      /\ NoDup result
      /\ (forall x, In x result -> In x adds)
      /\ Z.of_nat (length result)
         = Z.min limit (Z.of_nat (length (first_discovered adds))).
Proof.
  intros rt text limit adds Hord Hpos Hadds.
  exists (slice_to (set_order rt adds) limit).
  pose proof (Permutation_length (Hord adds)) as Hlen.
  split; [now apply resolve_iteration |]. split.
  { apply slice_to_NoDup.
    apply (Permutation_NoDup (Permutation_sym (Hord adds))).
    apply fromkeys_NoDup. }
  split.
  { intros x Hx. apply slice_to_incl in Hx. apply fromkeys_In.
    exact (Permutation_in _ (Hord adds) Hx). }
  unfold first_discovered, slice_to. rewrite <- Hlen.
  destruct (Z.leb_spec 0 limit); [| lia]. rewrite length_firstn. lia.
Qed.

Lemma X5_witness :
  exists result,
    resolve_tickers_from_text rt_insertion (u "a b c d") 2 = Ok result
    /\ NoDup result
    /\ (forall x, In x result -> In x [u "A"; u "B"; u "C"; u "D"])
    /\ Z.of_nat (length result)
       = Z.min 2
           (Z.of_nat (length (first_discovered [u "A"; u "B"; u "C"; u "D"]))).
Proof.
  apply X5_result_size.
  - apply insertion_order_ok.
  - lia.
  - vm_compute. reflexivity.
Defined.

(** ** What a word of the text contributes *)

Lemma split_token_not_nil (text tok : str) : In tok (split text) -> tok <> [].
Proof.
  intros H. unfold split, runs in H.
  apply runs_from_sound in H; [tauto | reflexivity].
Qed.

Lemma letter_token_candidate (rt : runtime) (text : str) (limit : Z)
      (tok : str) (adds : list str) :
  found_adds rt text limit = Ok adds ->
  In tok (split text) ->
  short_letter_token tok = true ->
  In (_maybe_append_st (upper tok)) adds.
Proof.
  intros Hadds Htok Hshort.
  apply short_letter_token_spec in Hshort. destruct Hshort as [Hlen Hall].
  destruct (letters_upper tok Hall) as [Hup [Hcaps Hlen']].
  destruct (found_adds_inv rt text limit adds Hadds) as [fz [_ ->]].
  apply in_or_app. left. rewrite <- Hup. apply pattern_adds_intro.
  - apply letter_token_kept; try assumption.
    now apply (split_token_not_nil text).
  - rewrite Hup. apply ticker_rx_letters; [lia | assumption].
Qed.

Lemma returned_when_it_fits (rt : runtime) (text : str) (limit : Z)
      (adds : list str) (x : str) :
  set_order_ok rt ->
  found_adds rt text limit = Ok adds ->
  In x adds ->
  (Z.of_nat (length (first_discovered adds)) <= limit)%Z ->
  exists result,
    resolve_tickers_from_text rt text limit = Ok result /\ In x result.
Proof.
  intros Hord Hadds Hx Hfew. exists (slice_to (set_order rt adds) limit).
  split; [now apply resolve_iteration |].
  pose proof (Hord adds) as P. unfold first_discovered in Hfew.
  rewrite slice_to_all by (rewrite (Permutation_length P); assumption).
  apply (Permutation_in _ (Permutation_sym P)). now apply fromkeys_In.
Qed.

(** X6.  The exact alias step is case-insensitive lookup of whole words:
    when the text contains a whitespace-delimited word of ASCII letters
    whose lower-cased form is a key of the alias table, the ticker of that
    alias is among the candidates, and it is returned whenever the number of
    distinct candidates does not exceed the limit. *)
Theorem X6_alias_word_is_found :
  forall (rt : runtime) (text : str) (limit : Z) (tok v : str)
         (adds : list str),
    set_order_ok rt ->
    found_adds rt text limit = Ok adds ->
    In tok (split text) ->
    forallb ascii_letter tok = true ->
    get _ALIAS_TO_TICKER (lower tok) = Some v ->
    In v adds
    /\ ((Z.of_nat (length (first_discovered adds)) <= limit)%Z ->
        exists result,
          resolve_tickers_from_text rt text limit = Ok result
          /\ In v result).
Proof.
  intros rt text limit tok v adds Hord Hadds Htok Hall Hget.
  assert (Hv : In v adds).
  { destruct (found_adds_inv rt text limit adds Hadds) as [fz [_ ->]].
    apply in_or_app. right. apply in_or_app. right.
    apply (exact_adds_intro _ (lower tok)); [| assumption].
    apply letter_token_kept; try assumption.
    now apply (split_token_not_nil text). }
  split; [assumption |].
  now apply returned_when_it_fits.
Qed.

Lemma X6_witness :
  In (u "NFLX") [u "NFLX"; u "NFLX"]
  /\ ((Z.of_nat (length (first_discovered [u "NFLX"; u "NFLX"])) <= 3)%Z ->
      exists result,
        resolve_tickers_from_text rt_reverse (u "Netflix 2024") 3 = Ok result
        /\ In (u "NFLX") result).
Proof.
  apply (X6_alias_word_is_found rt_reverse (u "Netflix 2024") 3
           (u "Netflix") (u "NFLX")).
  - apply reverse_order_ok.
  - vm_compute. reflexivity.
  - vm_compute. tauto.
  - vm_compute. reflexivity.
  - vm_compute. reflexivity.
Defined.

Lemma short_word_resolves (rt : runtime) (text : str) (limit : Z) (tok : str) :
  set_order_ok rt ->
  extract_ok rt ->
  (0 < limit)%Z ->
  In tok (split text) ->
  short_letter_token tok = true ->
  exists result,
    resolve_tickers_from_text rt text limit = Ok result
    /\ result <> [] /\ (Z.of_nat (length result) <= limit)%Z.
Proof.
  intros Hord Hex Hpos Htok Hshort.
  destruct (found_adds_total rt text limit Hex) as [adds Hadds].
  pose proof (letter_token_candidate rt text limit tok adds Hadds Htok Hshort)
    as Hcand.
  exists (slice_to (set_order rt adds) limit).
  split; [now apply resolve_iteration |].
  assert (Hin : In (_maybe_append_st (upper tok)) (set_order rt adds)).
  { apply (Permutation_in _ (Permutation_sym (Hord adds))).
    now apply fromkeys_In. }
  unfold slice_to. destruct (Z.leb_spec 0 limit); [| lia]. split.
  - destruct (set_order rt adds) as [|x xs]; [destruct Hin |].
    destruct (Z.to_nat limit) eqn:E; [lia | discriminate].
  - pose proof (firstn_le_length (Z.to_nat limit) (set_order rt adds)). lia.
Qed.

(** X7.  Any whitespace-delimited word of one to five ASCII letters is taken
    for a ticker, so for a positive limit the resolver returns at least one
    ticker for every text that contains such a word. *)
Theorem X7_short_word_gives_a_ticker :
  forall (rt : runtime) (text : str) (limit : Z) (tok : str),
    set_order_ok rt ->
    extract_ok rt ->
    (0 < limit)%Z ->
    In tok (split text) ->
    short_letter_token tok = true ->
    exists result,
      resolve_tickers_from_text rt text limit = Ok result /\ result <> [].
Proof.
  intros rt text limit tok Hord Hex Hpos Htok Hshort.
  destruct (short_word_resolves rt text limit tok Hord Hex Hpos Htok Hshort)
    as [result [H1 [H2 _]]].
  now exists result.
Qed.

Lemma X7_witness :
  exists result,
    resolve_tickers_from_text rt_insertion
      (u "what is the capital of France") 3 = Ok result
    /\ result <> [].
Proof.
  apply (X7_short_word_gives_a_ticker rt_insertion _ 3 (u "what")).
  - apply insertion_order_ok.
  - apply word_extract_ok.
  - lia.
  - vm_compute. tauto.
  - vm_compute. reflexivity.
Defined.

(** * The reports and the stock branches of the command line *)

(** ** Routing of a message *)

(** X9.  Every message that contains a whitespace-delimited word of one to
    five ASCII letters satisfies the condition of the branch for natural
    stock questions, with or without a stock keyword: once the earlier
    branches of the loop have not applied, it is answered with
    [get_freeform_stock_report]. *)
Theorem X9_short_word_is_a_stock_question :
  forall (rt : runtime) (user_input tok : str),
    set_order_ok rt ->
    extract_ok rt ->
    In tok (split user_input) ->
    short_letter_token tok = true ->
    is_stock_question rt user_input = Ok true.
Proof.
  intros rt user_input tok Hord Hex Htok Hshort. unfold is_stock_question.
  destruct (existsb _ STOCK_KEYWORDS_SV); [reflexivity |].
  destruct (existsb _ STOCK_KEYWORDS_EN); [reflexivity |].
  destruct (existsb _ STOCK_KEYWORDS_AR); [reflexivity |].
  destruct (short_word_resolves rt user_input default_limit tok Hord Hex
              eq_refl Htok Hshort) as [result [-> [Hne _]]].
  simpl. destruct result; [congruence | reflexivity].
Qed.

Lemma X9_witness :
  is_stock_question rt_insertion (u "what is the capital of France") = Ok true.
Proof.
  apply (X9_short_word_is_a_stock_question rt_insertion _ (u "what")).
  - apply insertion_order_ok.
  - apply word_extract_ok.
  - vm_compute. tauto.
  - vm_compute. reflexivity.
Defined.

(** ** The lines of the reports *)



Lemma freeform_body_eq (m : market) (i : nat) (lines : list str) (t : str) :
  freeform_body m (i, lines) t = (S i, lines ++ [freeform_line m i t; []]).
Proof.
  unfold freeform_body, freeform_line.
  destruct (freeform_try m i t); now rewrite <- !app_assoc.
Qed.

Lemma freeform_fold (m : market) (tickers : list str) (i : nat)
      (lines : list str) :
  fold_left (freeform_body m) tickers (i, lines)
  = (i + length tickers,
     lines
     ++ flat_map (fun it => [freeform_line m (fst it) (snd it); []])
          (combine (seq i (length tickers)) tickers)).
Proof.
  revert i lines. induction tickers as [|t tickers IH]; intros i lines.
  - simpl. now rewrite Nat.add_0_r, app_nil_r.
  - cbn [fold_left]. rewrite freeform_body_eq, IH.
    cbn [length seq combine flat_map fst snd]. f_equal; [lia |].
    now rewrite <- app_assoc.
Qed.



Lemma freeform_lines_eq (m : market) (tickers : list str) :
  freeform_lines m tickers
  = flat_map (fun it => [freeform_line m (fst it) (snd it); []])
      (enumerate tickers).
Proof. unfold freeform_lines. now rewrite freeform_fold. Qed.


(** ** The report for a free-text question *)

Lemma runs_from_none (p : char -> bool) (s : str) :
  forallb (fun c => negb (p c)) s = true -> runs_from p [] s = [].
Proof.
  induction s as [|c s IH]; simpl; [reflexivity |].
  intros H. apply andb_true_iff in H. destruct H as [Hc Hs].
  apply negb_true_iff in Hc. rewrite Hc. now apply IH.
Qed.

Lemma normalize_without_words (text : str) :
  forallb (fun c => negb (word_char (lower_char c))) text = true ->
  _normalize_company_text text = [].
Proof.
  intros H. unfold _normalize_company_text, _WORDS_RX_findall, runs.
  rewrite runs_from_none; [reflexivity |].
  unfold lower. rewrite forallb_forall in *. intros c Hc.
  apply in_map_iff in Hc. destruct Hc as [c0 [<- Hc0]]. now apply H.
Qed.

Lemma resolve_without_words (rt : runtime) (text : str) (limit : Z) :
  set_order_ok rt ->
  forallb (fun c => negb (word_char (lower_char c))) text = true ->
  extract rt [] (keys _ALIAS_TO_TICKER) limit = [] ->
  resolve_tickers_from_text rt text limit = Ok [].
Proof.
  intros Hord Hno Hempty.
  assert (Hadds : found_adds rt text limit = Ok []).
  { unfold found_adds, fuzzy_adds.
    rewrite (normalize_without_words text Hno), Hempty. reflexivity. }
  rewrite (resolve_iteration rt text limit [] Hord Hadds).
  rewrite (Permutation_nil (Permutation_sym (Hord []))).
  unfold slice_to. destruct (0 <=? limit)%Z; now rewrite firstn_nil.
Qed.

(** X11.  [get_freeform_stock_report] returns a text whatever the market
    requests do: their failures become lines of the report.  For a text
    written with code points up to U+00FF and Arabic letters that holds no
    ASCII or Nordic letter, no hyphen and no period (digits, punctuation,
    Arabic script) it is the fixed message that no company was found, as
    soon as the fuzzy matcher finds nothing for the empty query. *)
Theorem X11_freeform_report_total :
  forall (rt : runtime) (m : market) (text : str),
    set_order_ok rt ->
    extract_ok rt ->
    exists report,
      get_freeform_stock_report rt m text = Ok report
      /\ (forallb
            (fun c => lower_exact c && negb (word_char (lower_char c))) text
          = true ->
          extract rt [] (keys _ALIAS_TO_TICKER) 3 = [] ->
          report = NO_COMPANIES).
Proof.
  intros rt m text Hord Hex. unfold get_freeform_stock_report.
  destruct (found_adds_total rt text 3 Hex) as [adds Hadds].
  rewrite (resolve_iteration rt text 3 adds Hord Hadds). simpl bind.
  destruct (slice_to (set_order rt adds) 3) as [|t ts] eqn:E.
  - exists NO_COMPANIES. split; reflexivity.
  - eexists. split; [reflexivity |].
    intros Hno Hempty.
    assert (Hno' : forallb (fun c => negb (word_char (lower_char c))) text
                   = true).
    { rewrite forallb_forall in *. intros c Hc.
      specialize (Hno c Hc). apply andb_true_iff in Hno. tauto. }
    pose proof (resolve_without_words rt text 3 Hord Hno' Hempty) as H0.
    rewrite (resolve_iteration rt text 3 adds Hord Hadds), E in H0.
    discriminate.
Qed.

Lemma X11_witness :
  exists report,
    get_freeform_stock_report rt_insertion market_down
      [1587; 1593; 1585; 32; 53; 50]%N = Ok report
    /\ (forallb
          (fun c => lower_exact c && negb (word_char (lower_char c)))
          [1587; 1593; 1585; 32; 53; 50]%N = true ->
        extract rt_insertion [] (keys _ALIAS_TO_TICKER) 3 = [] ->
        report = NO_COMPANIES).
Proof.
  apply X11_freeform_report_total.
  - apply insertion_order_ok.
  - apply word_extract_ok.
Defined.

(** X12.  For a text that contains a whitespace-delimited word of one to
    five ASCII letters, [get_freeform_stock_report] takes the branch that
    builds a report, not the branch of the empty result: what it returns is
    the stripped join of the lines of one to three resolved tickers, each of
    which contributes two lines, its block (or, when a request failed, the
    line naming the ticker and the error) and an empty line. *)
Theorem X12_freeform_report_entries :
  forall (rt : runtime) (m : market) (text tok : str),
    set_order_ok rt ->
    extract_ok rt ->
    In tok (split text) ->
    short_letter_token tok = true ->
    exists tickers,
      resolve_tickers_from_text rt text 3 = Ok tickers
      /\ (1 <= length tickers <= 3)%nat
      /\ get_freeform_stock_report rt m text
         = Ok (strip (join NEWLINE (freeform_lines m tickers)))
      /\ freeform_lines m tickers
         = flat_map (fun it => [freeform_line m (fst it) (snd it); []])
             (enumerate tickers).
Proof.
  intros rt m text tok Hord Hex Htok Hshort.
  destruct (short_word_resolves rt text 3 tok Hord Hex eq_refl Htok Hshort)
    as [tickers [Hres [Hne Hlen]]].
  exists tickers. split; [assumption |]. split.
  - destruct tickers; [congruence | simpl in *; lia].
  - split; [| apply freeform_lines_eq].
    unfold get_freeform_stock_report. rewrite Hres. simpl bind.
    destruct tickers; [congruence | reflexivity].
Qed.

Lemma X12_witness :
  exists tickers,
    resolve_tickers_from_text rt_insertion (u "hello") 3 = Ok tickers
    /\ (1 <= length tickers <= 3)%nat
    /\ get_freeform_stock_report rt_insertion market_down (u "hello")
       = Ok (strip (join NEWLINE (freeform_lines market_down tickers)))
    /\ freeform_lines market_down tickers
       = flat_map
           (fun it => [freeform_line market_down (fst it) (snd it); []])
           (enumerate tickers).
Proof.
  apply (X12_freeform_report_entries rt_insertion market_down _ (u "hello")).
  - apply insertion_order_ok.
  - apply word_extract_ok.
  - vm_compute. tauto.
  - vm_compute. reflexivity.
Defined.

(** ** The tickers of the command branches *)

Lemma lstrip_with_none (p : char -> bool) (s : str) :
  forallb (fun c => negb (p c)) s = true -> lstrip_with p s = s.
Proof.
  destruct s as [|c s]; [reflexivity |]. simpl.
  intros H. apply andb_true_iff in H. destruct H as [Hc _].
  apply negb_true_iff in Hc. now rewrite Hc.
Qed.

Lemma forallb_rev {A : Type} (f : A -> bool) (xs : list A) :
  forallb f (rev xs) = forallb f xs.
Proof.
  induction xs as [|x xs IH]; [reflexivity |].
  simpl. rewrite forallb_app, IH. simpl. rewrite andb_true_r.
  apply andb_comm.
Qed.

Lemma strip_with_none (p : char -> bool) (s : str) :
  forallb (fun c => negb (p c)) s = true -> strip_with p s = s.
Proof.
  intros H. unfold strip_with, rstrip_with.
  rewrite (lstrip_with_none p s H).
  rewrite lstrip_with_none by now rewrite forallb_rev.
  apply rev_involutive.
Qed.

Lemma lstrip_with_nil (p : char -> bool) (s : str) :
  lstrip_with p s = [] <-> forallb p s = true.
Proof.
  induction s as [|c s IH]; simpl; [tauto |].
  destruct (p c); simpl; [exact IH |]. split; discriminate.
Qed.

Lemma lstrip_with_all (p : char -> bool) (s : str) :
  forallb p (lstrip_with p s) = true -> forallb p s = true.
Proof.
  induction s as [|c s IH]; simpl; [tauto |].
  destruct (p c) eqn:E; simpl; [exact IH |]. now rewrite E.
Qed.

Lemma strip_with_nil (p : char -> bool) (s : str) :
  strip_with p s = [] <-> forallb p s = true.
Proof.
  unfold strip_with, rstrip_with. split.
  - intros H. apply (f_equal (@rev char)) in H.
    rewrite rev_involutive in H. simpl in H.
    apply lstrip_with_nil in H. rewrite forallb_rev in H.
    now apply lstrip_with_all.
  - intros H. apply lstrip_with_nil in H. now rewrite H.
Qed.

Lemma token_strip (text tok : str) : In tok (split text) -> strip tok = tok.
Proof.
  intros H. apply strip_with_none. unfold split, runs in H.
  apply runs_from_sound in H; [tauto | reflexivity].
Qed.

Lemma upper_char_commas (c : char) :
  forallb (N.eqb 44) (upper_char c) = N.eqb 44 c.
Proof.
  unfold upper_char, between. split_tests; cbn [forallb andb negb];
    rewrite ?andb_true_r; split_tests; reflexivity.
Qed.

Lemma upper_commas (s : str) :
  forallb (N.eqb 44) (upper s) = forallb (N.eqb 44) s.
Proof.
  induction s as [|c s IH]; [reflexivity |].
  change (upper (c :: s)) with (upper_char c ++ upper s).
  rewrite forallb_app, upper_char_commas. cbn [forallb].
  f_equal. exact IH.
Qed.

(** X13.  In the prefix branch ("aktier: ...", "stocks: ...") the tickers
    are the whitespace-delimited tokens after the first colon, upper-cased
    and stripped of commas at both ends.  The list is empty, and the hint is
    printed, only when there is no token; a token made of commas only is not
    caught by that guard: it becomes an empty ticker in the list handed to
    [get_stock_report]. *)
Theorem X13_prefix_command_tickers :
  forall user_input : str,
    let tickers_part :=
      if contains user_input (u ":") then after_first 58%N user_input
      else [] in
    (prefix_command_tickers user_input = [] <-> split tickers_part = [])
    /\ (In [] (prefix_command_tickers user_input) <->
        exists tok,
          In tok (split tickers_part) /\ forallb (N.eqb 44) tok = true).
Proof.
  intros user_input tickers_part. unfold prefix_command_tickers.
  fold tickers_part. split.
  - split; intros H.
    + now apply map_eq_nil in H.
    + now rewrite H.
  - rewrite in_map_iff. split.
    + intros [tok [E Htok]]. exists tok. split; [assumption |].
      rewrite (token_strip _ _ Htok) in E. apply strip_with_nil in E.
      now rewrite upper_commas in E.
    + intros [tok [Htok Hall]]. exists tok. split; [| assumption].
      rewrite (token_strip _ _ Htok). apply strip_with_nil.
      now rewrite upper_commas.
Qed.

Lemma is_space_false_range (c : char) :
  is_space c = false ->
  (~ (9 <= c <= 13) /\ ~ (28 <= c <= 32) /\ c <> 133 /\ c <> 160
   /\ c <> 5760 /\ ~ (8192 <= c <= 8202) /\ c <> 8232 /\ c <> 8233
   /\ c <> 8239 /\ c <> 8287 /\ c <> 12288)%N.
Proof.
  unfold is_space. rewrite !orb_false_iff.
  rewrite <- !not_true_iff_false, !between_spec, !N.eqb_eq. tauto.
Qed.

Lemma upper_char_no_space (c : char) :
  is_space c = false ->
  upper_char c <> []
  /\ forallb (fun d => negb (is_space d)) (upper_char c) = true.
Proof.
  intros H. apply is_space_false_range in H.
  unfold upper_char, between. split_tests; cbn [andb negb];
    (split; [discriminate |]);
    cbn [forallb]; unfold is_space, between; split_tests; reflexivity.
Qed.

Lemma upper_no_space (s : str) :
  s <> [] ->
  forallb (fun c => negb (is_space c)) s = true ->
  upper s <> []
  /\ forallb (fun c => negb (is_space c)) (upper s) = true.
Proof.
  intros Hne Hall. split.
  - destruct s as [|c s]; [congruence |].
    simpl in Hall. apply andb_true_iff in Hall. destruct Hall as [Hc _].
    apply negb_true_iff in Hc. destruct (upper_char_no_space c Hc) as [N _].
    change (upper (c :: s)) with (upper_char c ++ upper s).
    destruct (upper_char c); [congruence | discriminate].
  - clear Hne. induction s as [|c s IH]; [reflexivity |].
    simpl in Hall. apply andb_true_iff in Hall. destruct Hall as [Hc Hs].
    apply negb_true_iff in Hc. destruct (upper_char_no_space c Hc) as [_ A].
    change (upper (c :: s)) with (upper_char c ++ upper s).
    rewrite forallb_app, A, (IH Hs). reflexivity.
Qed.

(** ** Where the returned tickers come from *)

(** X15.  The resolver invents nothing: every ticker it returns is either
    the upper-cased form, after the suffix normalizer, of a word of the
    normalized text that has the shape of a ticker, or a ticker of the alias
    table. *)
Theorem X15_returned_tickers_provenance :
  forall (rt : runtime) (text : str) (limit : Z) (result : list str),
    set_order_ok rt ->
    resolve_tickers_from_text rt text limit = Ok result ->
    forall x, In x result ->
      (exists token,
          In token (split (_normalize_company_text text))
          /\ Re.fullmatch ticker_rx (upper token) = true
          /\ x = _maybe_append_st (upper token))
      \/ In x (map snd _ALIAS_TO_TICKER).
Proof.
  intros rt text limit result Hord Hres x Hx.
  destruct (found_adds rt text limit) as [adds|e] eqn:Hadds.
  2:{ unfold resolve_tickers_from_text in Hres. rewrite Hadds in Hres.
      discriminate. }
  rewrite (resolve_iteration rt _ _ _ Hord Hadds) in Hres.
  injection Hres as <-. apply slice_to_incl in Hx.
  apply (Permutation_in _ (Hord adds)) in Hx. rewrite fromkeys_In in Hx.
  destruct (found_adds_inv rt text limit adds Hadds) as [fz [Hfz ->]].
  apply in_app_or in Hx. destruct Hx as [Hx|Hx].
  - left. now apply pattern_adds_In.
  - right. apply in_app_or in Hx. destruct Hx as [Hx|Hx].
    + destruct (for_each_getitem_In _ _ _ _ Hfz Hx) as [name [_ Hg]].
      exact (get_In_values _ _ _ Hg).
    + apply exact_adds_In in Hx. destruct Hx as [w [_ Hg]].
      exact (get_In_values _ _ _ Hg).
Qed.

Lemma X15_witness :
  resolve_tickers_from_text rt_insertion (u "sand 7") 3 = Ok [u "SAND.ST"]
  /\ ((exists token,
          In token (split (_normalize_company_text (u "sand 7")))
          /\ Re.fullmatch ticker_rx (upper token) = true
          /\ u "SAND.ST" = _maybe_append_st (upper token))
      \/ In (u "SAND.ST") (map snd _ALIAS_TO_TICKER)).
Proof.
  assert (H : resolve_tickers_from_text rt_insertion (u "sand 7") 3
              = Ok [u "SAND.ST"]) by (vm_compute; reflexivity).
  split; [exact H |].
  apply (X15_returned_tickers_provenance rt_insertion _ 3 _
           (insertion_order_ok word_extract) H).
  now left.
Defined.

(** ** The colon of the prefix branch *)

Lemma startswith_In (p s : str) (c : char) :
  startswith s p = true -> In c p -> In c s.
Proof.
  revert s. induction p as [|a p IH]; intros s H Hc; [destruct Hc |].
  destruct s as [|b s]; simpl in H; [discriminate |].
  apply andb_true_iff in H. destruct H as [Hab Hs].
  apply N.eqb_eq in Hab. subst b.
  destruct Hc as [<-|Hc]; [now left | right; now apply IH].
Qed.

Lemma startswith_nil (s : str) : startswith s [] = true.
Proof. destruct s; reflexivity. Qed.

Lemma contains_char (s : str) (c : char) : In c s -> contains s [c] = true.
Proof.
  induction s as [|b s IH]; intros H; [destruct H |].
  cbn [contains startswith]. destruct H as [->|H].
  - now rewrite N.eqb_refl, startswith_nil.
  - rewrite (IH H). apply orb_true_r.
Qed.

Lemma lstrip_with_In (p : char -> bool) (s : str) (c : char) :
  In c (lstrip_with p s) -> In c s.
Proof.
  induction s as [|b s IH]; simpl; [tauto |].
  destruct (p b); [intros H; right; now apply IH | tauto].
Qed.

Lemma strip_with_In (p : char -> bool) (s : str) (c : char) :
  In c (strip_with p s) -> In c s.
Proof.
  unfold strip_with, rstrip_with. intros H.
  apply in_rev in H. apply lstrip_with_In in H. apply in_rev in H.
  now apply lstrip_with_In in H.
Qed.

Lemma lower_char_colon (c : char) : lower_char c = 58%N -> c = 58%N.
Proof. unfold lower_char, between. split_tests; simpl; lia. Qed.

(** X16.  Whenever the condition of the prefix branch holds the message
    contains a colon: the tickers are always read from what follows the
    first colon, and the alternative [tickers_part = ""] is never taken. *)
Theorem X16_prefix_command_has_colon :
  forall user_input : str,
    is_prefix_command user_input = true ->
    contains user_input (u ":") = true.
Proof.
  intros user_input H. apply contains_char.
  apply (strip_with_In is_space). fold (strip user_input).
  assert (Hlow : In 58%N (lower (strip user_input)) ->
                 In 58%N (strip user_input)).
  { intros Hin. apply in_map_iff in Hin. destruct Hin as [c [E Hc]].
    apply lower_char_colon in E. now subst c. }
  unfold is_prefix_command in H.
  apply orb_true_iff in H. destruct H as [H|H].
  - apply orb_true_iff in H. destruct H as [H|H]; apply Hlow;
      apply (startswith_In _ _ 58%N H); vm_compute; tauto.
  - apply existsb_exists in H. destruct H as [p [Hp Hs]].
    apply (startswith_In _ _ 58%N Hs).
    simpl in Hp. destruct Hp as [<-|[<-|[]]]; vm_compute; tauto.
Qed.

Lemma X16_witness : contains (u "  Stocks: aapl, msft") (u ":") = true.
Proof.
  apply X16_prefix_command_has_colon. vm_compute. reflexivity.
Defined.

(** * Properties that hold for every case mapping *)

Lemma _maybe_append_st_with_upper (ticker : str) :
  _maybe_append_st_with upper ticker = _maybe_append_st ticker.
Proof. reflexivity. Qed.

Lemma stock_command_tickers_with_upper (user_input : str) :
  stock_command_tickers_with upper user_input
  = stock_command_tickers user_input.
Proof. reflexivity. Qed.

Lemma ticker_chars_upper (s : str) :
  forallb ticker_char s = true -> upper s = s.
Proof.
  induction s as [|c s IH]; [reflexivity |].
  simpl. intros H. apply andb_true_iff in H. destruct H as [Hc Hs].
  change (upper (c :: s)) with (upper_char c ++ upper s).
  rewrite (IH Hs). unfold ticker_char in Hc.
  rewrite !orb_true_iff, between_spec, !N.eqb_eq in Hc.
  unfold upper_char, between. split_tests; reflexivity.
Qed.

(** The upper-casing of the model satisfies the contract. *)
Lemma upper_meets_contract : upper_contract upper.
Proof.
  split; [exact upper_idem |]. split; [exact ticker_chars_upper |].
  exact upper_no_space.
Qed.

Lemma stockholm_ticker_chars :
  Forall (fun t => forallb ticker_char (t ++ _ST_SUFFIX) = true
                   /\ mem (t ++ _ST_SUFFIX) _STOCKHOLM_SUFFIX_CANDIDATES
                      = false)
         _STOCKHOLM_SUFFIX_CANDIDATES.
Proof. repeat constructor. Qed.

Section CaseMapping.

Variable py_upper : str -> str.
Hypothesis py_upper_ok : upper_contract py_upper.

Lemma _maybe_append_st_with_cases (ticker : str) :
  (In (py_upper ticker) _STOCKHOLM_SUFFIX_CANDIDATES
   /\ _maybe_append_st_with py_upper ticker = py_upper ticker ++ _ST_SUFFIX)
  \/ (mem (py_upper ticker) _STOCKHOLM_SUFFIX_CANDIDATES
        && negb (endswith (py_upper ticker) (u ".ST")) = false
      /\ _maybe_append_st_with py_upper ticker = py_upper ticker).
Proof.
  unfold _maybe_append_st_with.
  destruct (mem (py_upper ticker) _STOCKHOLM_SUFFIX_CANDIDATES
            && negb (endswith (py_upper ticker) (u ".ST"))) eqn:E.
  - left. apply andb_true_iff in E. destruct E as [E _].
    apply mem_In in E. now split.
  - right. now split.
Qed.

Lemma _maybe_append_st_with_fixed (ticker : str) :
  py_upper (_maybe_append_st_with py_upper ticker)
  = _maybe_append_st_with py_upper ticker.
Proof.
  destruct py_upper_ok as [Hidem [Hfix _]].
  destruct (_maybe_append_st_with_cases ticker) as [[Hin ->]|[_ ->]].
  - apply Hfix.
    exact (proj1 (proj1 (Forall_forall _ _) stockholm_ticker_chars _ Hin)).
  - apply Hidem.
Qed.

Lemma _maybe_append_st_with_idem (ticker : str) :
  _maybe_append_st_with py_upper (_maybe_append_st_with py_upper ticker)
  = _maybe_append_st_with py_upper ticker.
Proof.
  destruct py_upper_ok as [Hidem [Hfix _]].
  destruct (_maybe_append_st_with_cases ticker) as [[Hin E]|[Hc E]];
    rewrite E.
  - destruct (proj1 (Forall_forall _ _) stockholm_ticker_chars _ Hin)
      as [Hchars Hmem].
    unfold _maybe_append_st_with. rewrite (Hfix _ Hchars), Hmem. reflexivity.
  - unfold _maybe_append_st_with. rewrite Hidem, Hc. reflexivity.
Qed.

End CaseMapping.

(** C7.  The market suffix normalizer is idempotent: for every ticker string
    [t], applying it twice gives what applying it once gives.  This holds
    for every string of code points, whatever case mapping stands for
    [str.upper], provided upper-casing twice is upper-casing once and
    strings of capital ASCII letters, hyphens and periods are left
    unchanged. *)
Theorem C7_maybe_append_st_idempotent :
  forall py_upper : str -> str,
    upper_contract py_upper ->
    forall t : str,
      _maybe_append_st_with py_upper (_maybe_append_st_with py_upper t)
      = _maybe_append_st_with py_upper t.
Proof. exact _maybe_append_st_with_idem. Qed.

Lemma C7_witness :
  _maybe_append_st_with upper (_maybe_append_st_with upper (u "eric-b"))
  = _maybe_append_st_with upper (u "eric-b").
Proof.
  apply C7_maybe_append_st_idempotent. exact upper_meets_contract.
Defined.

(** X8.  The suffix normalizer is insensitive to the case of its argument
    and always returns an upper-cased symbol: the result for [t] is the
    result for the upper-cased [t], and upper-casing the result changes
    nothing; for every case mapping that meets the contract. *)
Theorem X8_maybe_append_st_upper_case :
  forall py_upper : str -> str,
    upper_contract py_upper ->
    forall t : str,
      _maybe_append_st_with py_upper (py_upper t)
      = _maybe_append_st_with py_upper t
      /\ py_upper (_maybe_append_st_with py_upper t)
         = _maybe_append_st_with py_upper t.
Proof.
  intros py_upper Hok t. split.
  - unfold _maybe_append_st_with. destruct Hok as [Hidem _].
    now rewrite Hidem.
  - now apply _maybe_append_st_with_fixed.
Qed.

Lemma X8_witness :
  _maybe_append_st_with upper (upper (u "Evo"))
  = _maybe_append_st_with upper (u "Evo")
  /\ upper (_maybe_append_st_with upper (u "Evo"))
     = _maybe_append_st_with upper (u "Evo").
Proof.
  apply X8_maybe_append_st_upper_case. exact upper_meets_contract.
Defined.

(** X14.  In the [/stock] branch the tickers are the whitespace-delimited
    tokens after the first one, upper-cased; the call of [strip] changes
    nothing.  None of them is empty or holds white space, and upper-casing
    one of them again changes nothing; for every case mapping that meets
    the contract. *)
Theorem X14_stock_command_tickers :
  forall py_upper : str -> str,
    upper_contract py_upper ->
    forall user_input : str,
      stock_command_tickers_with py_upper user_input
      = map py_upper (tl (split user_input))
      /\ (forall t, In t (stock_command_tickers_with py_upper user_input) ->
            t <> []
            /\ forallb (fun c => negb (is_space c)) t = true
            /\ py_upper t = t).
Proof.
  intros py_upper [Hidem [_ Hspace]] user_input.
  assert (Htl : forall p, In p (tl (split user_input)) ->
                          In p (split user_input)).
  { intros p Hp. destruct (split user_input); [destruct Hp | now right]. }
  assert (E : stock_command_tickers_with py_upper user_input
              = map py_upper (tl (split user_input))).
  { unfold stock_command_tickers_with. apply map_ext_in. intros p Hp.
    now rewrite (token_strip user_input p (Htl p Hp)). }
  split; [exact E |].
  intros t Ht. rewrite E in Ht. apply in_map_iff in Ht.
  destruct Ht as [p [<- Hp]]. apply Htl in Hp.
  unfold split, runs in Hp. apply runs_from_sound in Hp; [| reflexivity].
  destruct Hp as [Hne Hall].
  destruct (Hspace p Hne Hall) as [H1 H2].
  repeat split; [assumption | assumption | apply Hidem].
Qed.

Lemma X14_witness :
  stock_command_tickers_with upper (u "/stock aapl Msft")
  = map upper (tl (split (u "/stock aapl Msft")))
  /\ (forall t,
        In t (stock_command_tickers_with upper (u "/stock aapl Msft")) ->
        t <> []
        /\ forallb (fun c => negb (is_space c)) t = true
        /\ upper t = t).
Proof.
  apply X14_stock_command_tickers. exact upper_meets_contract.
Defined.
